(** * Reverse DCF engine (src/dcf-engine.js): embedding and properties

    The file embeds [calculateImpliedEquityValue], [solveImpliedGrowthRate],
    [getDefaultAssumptions] and [getSignal] of src/dcf-engine.js as Rocq
    functions, states the specification's descriptions of them as separate
    definitions, and proves how the two relate.

    Numbers.  A JavaScript Number is modelled by [jsnum]: an exact rational
    ([Num q]) or one of the three non-finite values [PInf], [NInf], [NaN].
    Arithmetic on [jsnum] follows IEEE-754 as JavaScript applies it
    (division of a non-zero number by zero is an infinity, [0/0] and
    [Inf - Inf] are [NaN], every comparison with [NaN] is false), but it is
    exact: rounding to 53 bits, overflow, underflow and the sign of zero are
    abstracted away.  The arguments of the engine's functions are finite
    numbers ([Q]); the forecast period is an integer count of years ([Z]),
    so that [Math.pow] is only ever taken at an integer exponent.

    Results.  [null] is [None].  The solver is embedded together with the
    list of growth rates at which it calls the valuation function, so that
    statements about which evaluations happen can be made.

    Strings are ASCII: [toLowerCase] maps A-Z to a-z.

    Beyond the four functions above, the file embeds [generateProjections]
    and [analyzeStock] of the same module, the computation of the
    POST /api/calculate-dcf handler of src/server.js, and the front end's
    [getMcapInfo], [calcValue] and [solveGrowth]; their properties are in
    the last part. *)

From Stdlib Require Import QArith Qabs Qround Qpower Qfield ZArith Lia Lqa.
From Stdlib Require Import List String Ascii Bool.
Import ListNotations.

Local Open Scope Q_scope.

(** ** JavaScript numbers *)

Module Js.

Inductive jsnum : Type :=
| Num (q : Q)
| PInf
| NInf
| NaN.

(** Equality of numbers up to the representation of the rational. *)
Definition jeq (a b : jsnum) : Prop :=
  match a, b with
  | Num x, Num y => x == y
  | PInf, PInf => True
  | NInf, NInf => True
  | NaN, NaN => True
  | _, _ => False
  end.

Definition Qltb (x y : Q) : bool := negb (Qle_bool y x).

Definition neg (a : jsnum) : jsnum :=
  match a with
  | Num x => Num (- x)
  | PInf => NInf
  | NInf => PInf
  | NaN => NaN
  end.

Definition add (a b : jsnum) : jsnum :=
  match a, b with
  | NaN, _ | _, NaN => NaN
  | Num x, Num y => Num (x + y)
  | PInf, NInf | NInf, PInf => NaN
  | PInf, _ | _, PInf => PInf
  | NInf, _ | _, NInf => NInf
  end.

Definition sub (a b : jsnum) : jsnum := add a (neg b).

(** An infinity multiplied by a finite number: the sign decides, and
    [Infinity * 0] is [NaN]. *)
Definition scale_inf (positive_inf : bool) (x : Q) : jsnum :=
  match x ?= 0 with
  | Gt => if positive_inf then PInf else NInf
  | Lt => if positive_inf then NInf else PInf
  | Eq => NaN
  end.

Definition mul (a b : jsnum) : jsnum :=
  match a, b with
  | NaN, _ | _, NaN => NaN
  | Num x, Num y => Num (x * y)
  | Num x, PInf | PInf, Num x => scale_inf true x
  | Num x, NInf | NInf, Num x => scale_inf false x
  | PInf, PInf | NInf, NInf => PInf
  | PInf, NInf | NInf, PInf => NInf
  end.

Definition div (a b : jsnum) : jsnum :=
  match a, b with
  | NaN, _ | _, NaN => NaN
  | Num x, Num y =>
      if Qeq_bool y 0 then scale_inf true x else Num (x / y)
  | Num _, PInf | Num _, NInf => Num 0
  | PInf, Num y => if Qltb y 0 then NInf else PInf
  | NInf, Num y => if Qltb y 0 then PInf else NInf
  | _, _ => NaN
  end.

Definition abs (a : jsnum) : jsnum :=
  match a with
  | Num x => Num (Qabs x)
  | PInf | NInf => PInf
  | NaN => NaN
  end.

(** The relational operator [<]. *)
Definition lt (a b : jsnum) : bool :=
  match a, b with
  | NaN, _ | _, NaN => false
  | Num x, Num y => Qltb x y
  | _, NInf => false
  | NInf, _ => true
  | PInf, _ => false
  | _, PInf => true
  end.

(** [Math.pow] of a finite base at an integer exponent: a zero base at a
    negative exponent gives [Infinity]. *)
Definition Math_pow (b : Q) (e : Z) : jsnum :=
  if (e <? 0)%Z && Qeq_bool b 0 then PInf else Num (b ^ e).

(** [Math.round]: the nearest integer, halves towards +Infinity. *)
Definition Math_round (x : Q) : Q := inject_Z (Qfloor (x + (1 # 2))).

End Js.

Import Js.

Declare Scope js_scope.
Delimit Scope js_scope with js.
Infix "+" := add : js_scope.
Infix "-" := sub : js_scope.
Infix "*" := mul : js_scope.
Infix "/" := div : js_scope.

(** ** calculateImpliedEquityValue *)

(** The summation loop of the near-equal-rates branch,
    [for (let t = 1; t <= n; t++) pvEarnings += ...]: [k] iterations are
    left, [t] is the loop counter and [pvEarnings] the accumulator. *)
Fixpoint pvEarnings_loop (currentPAT g r : Q) (k : nat) (t : Z)
    (pvEarnings : jsnum) : jsnum :=
  match k with
  | O => pvEarnings
  | S k' =>
      pvEarnings_loop currentPAT g r k' (t + 1)%Z
        (pvEarnings
         + (Num currentPAT * Math_pow (1 + g) t) / Math_pow (1 + r) t)%js
  end.

Definition calculateImpliedEquityValue
    (currentPAT growthRatePct discountRatePct : Q) (forecastPeriod : Z)
    (exitPE : Q) : jsnum :=
  if Qle_bool currentPAT 0 || Qle_bool exitPE 0 || (forecastPeriod <=? 0)%Z
  then Num 0
  else
    let g := growthRatePct / 100 in
    let r := discountRatePct / 100 in
    let n := forecastPeriod in
    let pvEarnings :=
      if Qltb (Qabs (r - g)) 0.0001 then
        pvEarnings_loop currentPAT g r (Z.to_nat n) 1%Z (Num 0)
      else
        (Num currentPAT * Num (1 + g)
         * ((Num 1 - Math_pow (1 + g) n * Math_pow (1 + r) (- n))
            / Num (r - g)))%js in
    let terminalPAT := (Num currentPAT * Math_pow (1 + g) n)%js in
    let terminalValue := ((terminalPAT * Num exitPE) / Math_pow (1 + r) n)%js in
    (pvEarnings + terminalValue)%js.

(** ** solveImpliedGrowthRate *)

(** [Math.round(x * 100) / 100]. *)
Definition round2 (x : Q) : Q := Math_round (x * 100) / 100.

(** The bisection loop, [iters] iterations before the budget is exhausted.
    The result is paired with the list of growth rates at which the
    valuation function was called, in call order. *)
Fixpoint bisect (val : Q -> jsnum) (target tolerance : Q) (iters : nat)
    (low high : Q) : list Q * Q :=
  match iters with
  | O => ([], round2 ((low + high) / 2))
  | S i =>
      let mid := (low + high) / 2 in
      let v := val mid in
      if lt (abs (v - Num target)%js) (Num tolerance) then ([mid], round2 mid)
      else
        let rest :=
          if lt v (Num target) then bisect val target tolerance i mid high
          else bisect val target tolerance i low mid in
        (mid :: fst rest, snd rest)
  end.

Definition maxIterations : nat := 500.

(** The solver with its calls to the valuation function made explicit;
    [None] is JavaScript's [null]. *)
Definition solveImpliedGrowthRate_run
    (currentPAT marketCap discountRatePct : Q) (forecastPeriod : Z)
    (exitPE : Q) : list Q * option Q :=
  if Qle_bool currentPAT 0 || Qle_bool marketCap 0 || Qle_bool exitPE 0
  then ([], None)
  else
    let low := -90 in
    let high := 200 in
    let target := marketCap in
    let tolerance := marketCap * 0.00001 in
    let out :=
      bisect
        (fun mid => calculateImpliedEquityValue currentPAT mid discountRatePct
                      forecastPeriod exitPE)
        target tolerance maxIterations low high in
    (fst out, Some (snd out)).

Definition solveImpliedGrowthRate
    (currentPAT marketCap discountRatePct : Q) (forecastPeriod : Z)
    (exitPE : Q) : option Q :=
  snd (solveImpliedGrowthRate_run currentPAT marketCap discountRatePct
         forecastPeriod exitPE).

Definition valuation_calls
    (currentPAT marketCap discountRatePct : Q) (forecastPeriod : Z)
    (exitPE : Q) : list Q :=
  fst (solveImpliedGrowthRate_run currentPAT marketCap discountRatePct
         forecastPeriod exitPE).

(** ** getDefaultAssumptions *)

Record AssumptionSet : Type := {
  forecastYears : Z;
  discountRate : Q;
  terminalGrowth : Q;
  exitPE : Q;
  expectedPatCagr : Q;
  category : string
}.

Local Open Scope string_scope.

(** [String.prototype.toLowerCase] on ASCII text: the letters A-Z are
    mapped to a-z, every other character is kept. *)
Definition lower_ascii (c : ascii) : ascii :=
  let n := N_of_ascii c in
  if (65 <=? n)%N && (n <=? 90)%N then ascii_of_N (n + 32) else c.

Fixpoint toLowerCase (s : string) : string :=
  match s with
  | EmptyString => EmptyString
  | String c s' => String (lower_ascii c) (toLowerCase s')
  end.

(** [s.includes(key)]: [key] occurs in [s] at some position. *)
Fixpoint includes (s key : string) : bool :=
  if prefix key s then true
  else
    match s with
    | EmptyString => false
    | String _ s' => includes s' key
    end.

(** The entries of the object literal [SECTOR_PE], in insertion order
    (the order [Object.entries] enumerates them in). *)
Definition SECTOR_PE : list (string * Q) :=
  [ ("fmcg", 45%Q); ("it", 22%Q); ("information technology", 22%Q);
    ("pharma", 30%Q); ("pharmaceutical", 30%Q);
    ("healthcare", 30%Q); ("bank", 15%Q); ("banking", 15%Q); ("nbfc", 20%Q);
    ("financial", 18%Q); ("insurance", 35%Q); ("auto", 20%Q);
    ("automobile", 20%Q);
    ("chemical", 25%Q); ("capital goods", 25%Q); ("cement", 25%Q);
    ("construction", 18%Q);
    ("consumer durable", 35%Q); ("consumer", 30%Q); ("diversified", 20%Q);
    ("energy", 12%Q); ("fertilizer", 15%Q); ("infrastructure", 15%Q);
    ("logistics", 25%Q);
    ("media", 25%Q); ("entertainment", 25%Q); ("metal", 12%Q);
    ("mining", 12%Q);
    ("oil", 10%Q); ("gas", 10%Q); ("petroleum", 10%Q); ("power", 10%Q);
    ("utility", 10%Q);
    ("real estate", 15%Q); ("realty", 15%Q); ("retail", 40%Q);
    ("sugar", 15%Q);
    ("telecom", 20%Q); ("textile", 15%Q); ("tourism", 25%Q); ("hotel", 25%Q);
    ("hospitality", 25%Q);
    ("trading", 12%Q); ("manufacturing", 22%Q); ("technology", 30%Q);
    ("software", 25%Q) ].

(** [for (const [key, val] of entries) if (s.includes(key)) { exitPE = val;
    break; }], started with the current value of [exitPE]. *)
Fixpoint sector_scan (s : string) (entries : list (string * Q)) (exitPE : Q)
  : Q :=
  match entries with
  | [] => exitPE
  | (key, val) :: rest =>
      if includes s key then val else sector_scan s rest exitPE
  end.

(** [sector] is [None] for [null]/[undefined]; the empty string is falsy
    as well. *)
Definition getDefaultAssumptions (marketCapCr : Q) (sector : option string)
  : AssumptionSet :=
  let '(forecastYears, discountRate, patCagr, category) :=
    if Qltb marketCapCr 500 then (20%Z, 20%Q, 25%Q, "Micro Cap")
    else if Qltb marketCapCr 5000 then (20%Z, 20%Q, 25%Q, "Small Cap")
    else if Qltb marketCapCr 20000 then (15%Z, 18%Q, 18%Q, "Mid Cap")
    else if Qltb marketCapCr 50000 then (15%Z, 16%Q, 15%Q, "Large-Mid Cap")
    else if Qltb marketCapCr 200000 then (10%Z, 15%Q, 12%Q, "Large Cap")
    else (10%Z, 13%Q, 10%Q, "Mega Cap") in
  let exitPE :=
    match sector with
    | None | Some EmptyString => 20%Q
    | Some sector =>
        let s := toLowerCase sector in
        sector_scan s SECTOR_PE 20%Q
    end in
  {| forecastYears := forecastYears;
     discountRate := discountRate;
     terminalGrowth := 4%Q;
     exitPE := exitPE;
     expectedPatCagr := patCagr;
     category := category |}.

(** ** getSignal *)

(** [None] is [null]/[undefined]. *)
Definition getSignal (expectationGap : option jsnum) : string :=
  match expectationGap with
  | None => "N/A"
  | Some gap =>
      if lt (Num 5) gap then "Strong Buy"
      else if lt (Num 2) gap then "Buy"
      else if lt gap (Num (-5)) then "Sell"
      else if lt gap (Num (-2)) then "Caution"
      else "Hold"
  end.

Local Close Scope string_scope.

(** ** Specification-side definitions *)

(** The sum of [term t] over [t = 1 .. n], in JavaScript arithmetic. *)
Definition js_sum_1_to (n : Z) (term : Z -> jsnum) : jsnum :=
  fold_left add (map (fun i => term (Z.of_nat i)) (seq 1 (Z.to_nat n))) (Num 0).

(** The forecast-period component as the specification words it:
    the closed-form growing annuity away from [r = g], the termwise sum
    within [1e-4] of it. *)
Definition forecast_component_js (PAT g r : Q) (n : Z) : jsnum :=
  if Qlt_le_dec (Qabs (r - g)) (1 # 10000) then
    js_sum_1_to n
      (fun t => (Num PAT * Math_pow (1 + g) t) / Math_pow (1 + r) t)%js
  else
    (Num PAT * Num (1 + g)
     * ((Num 1 - Math_pow (1 + g) n * Math_pow (1 + r) (- n))
        / Num (r - g)))%js.

Definition terminal_component_js (PAT g r : Q) (n : Z) (exitMultiple : Q)
  : jsnum :=
  ((Num PAT * Math_pow (1 + g) n * Num exitMultiple) / Math_pow (1 + r) n)%js.

(** The same two components over the rationals, where no division by
    zero occurs. *)
Fixpoint sum_1_to (k : nat) (term : Z -> Q) : Q :=
  match k with
  | O => 0
  | S k' => sum_1_to k' term + term (Z.of_nat (S k'))
  end.

Definition forecast_component (PAT g r : Q) (n : Z) : Q :=
  if Qlt_le_dec (Qabs (r - g)) (1 # 10000) then
    sum_1_to (Z.to_nat n) (fun t => PAT * (1 + g) ^ t / (1 + r) ^ t)
  else
    PAT * (1 + g) * (1 - (1 + g) ^ n * (1 + r) ^ (- n)) / (r - g).

Definition terminal_component (PAT g r : Q) (n : Z) (exitMultiple : Q) : Q :=
  (PAT * (1 + g) ^ n * exitMultiple) / (1 + r) ^ n.

(** The signal bands of the specification, in priority order. *)
Definition signal_bands : list ((jsnum -> bool) * string) :=
  [ (fun gap => lt (Num 5) gap, "Strong Buy"%string);
    (fun gap => lt (Num 2) gap, "Buy"%string);
    (fun gap => lt gap (Num (-5)), "Sell"%string);
    (fun gap => lt gap (Num (-2)), "Caution"%string) ].

(** First match wins; "Hold" when no band matches, "N/A" without a gap. *)
Definition classify_signal (gap : option jsnum) : string :=
  match gap with
  | None => "N/A"%string
  | Some x =>
      match find (fun band => fst band x) signal_bands with
      | Some band => snd band
      | None => "Hold"%string
      end
  end.

(** The market-cap boundaries and the six bands they delimit. *)
Definition band_boundaries : list Q := [500; 5000; 20000; 50000; 200000].

Definition band_index (marketCap : Q) : nat :=
  List.length (filter (fun b => Qle_bool b marketCap) band_boundaries).

(** (forecastYears, discountRate, expectedGrowth, label) of each band. *)
Definition band_table : list (Z * Q * Q * string) :=
  [ (20%Z, 20, 25, "Micro Cap"%string);
    (20%Z, 20, 25, "Small Cap"%string);
    (15%Z, 18, 18, "Mid Cap"%string);
    (15%Z, 16, 15, "Large-Mid Cap"%string);
    (10%Z, 15, 12, "Large Cap"%string);
    (10%Z, 13, 10, "Mega Cap"%string) ].

(** [key] occurs in [s] as a contiguous substring. *)
Definition contains (s key : string) : Prop :=
  exists before after : string, s = (before ++ key ++ after)%string.

(** The first entry of the table, if any, whose key occurs in [label]
    once lower-cased. *)
Definition sector_match (label : string) : option (string * Q) :=
  find (fun entry => includes (toLowerCase label) (fst entry)) SECTOR_PE.

(** *** Bisection as the specification describes it *)

Section BisectionSpec.

Variable val : Q -> jsnum.
Variables target tolerance : Q.

(** [|val mid - target| < tolerance]. *)
Definition within_tolerance (mid : Q) : bool :=
  lt (abs (val mid - Num target)%js) (Num tolerance).

(** The computed value is below the target. *)
Definition below_target (mid : Q) : bool := lt (val mid) (Num target).

Definition midpoint (bracket : Q * Q) : Q := (fst bracket + snd bracket) / 2.

(** One narrowing step: raise [low] to [mid] when the value at [mid] is
    below the target, lower [high] to [mid] when it is not. *)
Definition narrow (bracket : Q * Q) : Q * Q :=
  if below_target (midpoint bracket) then (midpoint bracket, snd bracket)
  else (fst bracket, midpoint bracket).

(** The bracket after [k] narrowing steps. *)
Fixpoint bracket_after (k : nat) (bracket : Q * Q) : Q * Q :=
  match k with
  | O => bracket
  | S k' => bracket_after k' (narrow bracket)
  end.

(** The midpoint evaluated in iteration [k] (counted from 0). *)
Definition mid_at (bracket : Q * Q) (k : nat) : Q :=
  midpoint (bracket_after k bracket).

End BisectionSpec.

Definition initial_bracket : Q * Q := (-90, 200).

(** The lower bound after it has been raised to the midpoint [k] times
    while the upper bound stays at [high]. *)
Fixpoint raise_low (k : nat) (low high : Q) : Q :=
  match k with
  | O => low
  | S k' => raise_low k' ((low + high) / 2) high
  end.

(** *** The valuation as a polynomial in (1+g)/(1+r) *)

Definition geometric_sum (q : Q) (k : nat) : Q := sum_1_to k (fun t => q ^ t).

(** Implied value per unit of current profit. *)
Definition value_multiple (q exitMultiple : Q) (k : nat) : Q :=
  geometric_sum q k + exitMultiple * q ^ Z.of_nat k.

(** The valuation as a rational function of the growth percentage. *)
Definition poly_value (PAT rp PE : Q) (n : Z) (g : Q) : Q :=
  PAT * value_multiple ((1 + g / 100) / (1 + rp / 100)) PE (Z.to_nat n).

(** Half the width of the bracket after 26 halvings of [-90, 200]. *)
Definition final_step : Q := 290 # 134217728.

(** A bound on the ratio of the values at two growth rates in [-90, 200]
    that are at most [final_step] apart, for horizons up to 30 years. *)
Definition growth_factor : Q := 1 + (29 # 134217728).
Definition ratio_bound : Q := growth_factor ^ 30.

(** The band-determined fields of an assumption set. *)
Definition band_of (a : AssumptionSet) : Z * Q * Q * string :=
  (forecastYears a, discountRate a, expectedPatCagr a, category a).

(** ** generateProjections *)

Record Projection : Type := { year : Z; pat : jsnum }.

(** [for (let t = 1; t <= forecastPeriod; t++) projections.push(...)]:
    [k] iterations are left, [t] is the loop counter. *)
Fixpoint projections_loop (currentPAT g : Q) (k : nat) (t : Z)
    (projections : list Projection) : list Projection :=
  match k with
  | O => projections
  | S k' =>
      projections_loop currentPAT g k' (t + 1)%Z
        (projections
         ++ [ {| year := t;
                 pat := (Num currentPAT * Math_pow (1 + g) t)%js |} ])
  end.

Definition generateProjections (currentPAT growthRatePct : Q)
    (forecastPeriod : Z) : list Projection :=
  let g := growthRatePct / 100 in
  projections_loop currentPAT g (Z.to_nat forecastPeriod) 1%Z [].

(** ** analyzeStock *)

(** [x || fallback] on an optional number: [undefined], [null] and [0] are
    falsy. *)
Definition or_else_Q (x : option Q) (fallback : Q) : Q :=
  match x with
  | Some v => if Qeq_bool v 0 then fallback else v
  | None => fallback
  end.

Definition or_else_Z (x : option Z) (fallback : Z) : Z :=
  match x with
  | Some v => if (v =? 0)%Z then fallback else v
  | None => fallback
  end.

(** The object [stockData]: its numeric fields are numbers, except the
    market cap, which may be missing. *)
Module Stock.
Record t : Type := {
  symbol : string;
  name : string;
  sector : option string;
  cmp : Q;
  marketCapCr : option Q;
  sharesOutstandingCr : Q;
  currentPAT : Q
}.
End Stock.

(** The object [customAssumptions]; [{}] has every field missing. *)
Module Custom.
Record t : Type := {
  forecastYears : option Z;
  discountRate : option Q;
  terminalGrowth : option Q;
  exitPE : option Q;
  expectedPatCagr : option Q
}.
Definition none : t :=
  {| forecastYears := None; discountRate := None; terminalGrowth := None;
     exitPE := None; expectedPatCagr := None |}.
End Custom.

Module Assumptions.
Record t : Type := {
  forecastYears : Z;
  discountRate : Q;
  terminalGrowth : Q;
  exitPE : Q;
  expectedPatCagr : Q
}.
End Assumptions.

Module Results.
Record t : Type := {
  impliedGrowthRate : option Q;
  impliedEquityValue : jsnum;
  expectationGap : Q;
  upside : jsnum;
  signal : string
}.
End Results.

Module Analysis.
Record t : Type := {
  symbol : string;
  name : string;
  sector : option string;
  cmp : Q;
  marketCapCr : Q;
  currentPAT : Q;
  mcapCategory : string;
  assumptions : Assumptions.t;
  results : Results.t;
  projections : list Projection;
  defaults : AssumptionSet
}.
End Analysis.

(** [mcapCr > 0 ? ((impliedEquityValue / mcapCr) - 1) * 100 : 0]. *)
Definition upside_of (impliedEquityValue : jsnum) (mcapCr : Q) : jsnum :=
  if Qltb 0 mcapCr
  then ((impliedEquityValue / Num mcapCr - Num 1) * Num 100)%js
  else Num 0.

Definition analyzeStock (stockData : Stock.t) (customAssumptions : Custom.t)
  : Analysis.t :=
  let mcapCr :=
    or_else_Q (Stock.marketCapCr stockData)
      (Stock.cmp stockData * Stock.sharesOutstandingCr stockData) in
  let defaults := getDefaultAssumptions mcapCr (Stock.sector stockData) in
  let assumptions :=
    {| Assumptions.forecastYears :=
         or_else_Z (Custom.forecastYears customAssumptions)
           (forecastYears defaults);
       Assumptions.discountRate :=
         or_else_Q (Custom.discountRate customAssumptions)
           (discountRate defaults);
       Assumptions.terminalGrowth :=
         or_else_Q (Custom.terminalGrowth customAssumptions)
           (terminalGrowth defaults);
       Assumptions.exitPE :=
         or_else_Q (Custom.exitPE customAssumptions) (exitPE defaults);
       Assumptions.expectedPatCagr :=
         or_else_Q (Custom.expectedPatCagr customAssumptions)
           (expectedPatCagr defaults) |} in
  let impliedGrowthRate :=
    solveImpliedGrowthRate (Stock.currentPAT stockData) mcapCr
      (Assumptions.discountRate assumptions)
      (Assumptions.forecastYears assumptions)
      (Assumptions.exitPE assumptions) in
  let impliedEquityValue :=
    calculateImpliedEquityValue (Stock.currentPAT stockData)
      (Assumptions.expectedPatCagr assumptions)
      (Assumptions.discountRate assumptions)
      (Assumptions.forecastYears assumptions)
      (Assumptions.exitPE assumptions) in
  let expectationGap :=
    Assumptions.expectedPatCagr assumptions - or_else_Q impliedGrowthRate 0 in
  let upside := upside_of impliedEquityValue mcapCr in
  let projections :=
    generateProjections (Stock.currentPAT stockData)
      (or_else_Q impliedGrowthRate 0)
      (Assumptions.forecastYears assumptions) in
  {| Analysis.symbol := Stock.symbol stockData;
     Analysis.name := Stock.name stockData;
     Analysis.sector := Stock.sector stockData;
     Analysis.cmp := Stock.cmp stockData;
     Analysis.marketCapCr := mcapCr;
     Analysis.currentPAT := Stock.currentPAT stockData;
     Analysis.mcapCategory := category defaults;
     Analysis.assumptions := assumptions;
     Analysis.results :=
       {| Results.impliedGrowthRate := impliedGrowthRate;
          Results.impliedEquityValue := impliedEquityValue;
          Results.expectationGap := expectationGap;
          Results.upside := upside;
          Results.signal := getSignal (Some (Num expectationGap)) |};
     Analysis.projections := projections;
     Analysis.defaults := defaults |}.

(** ** POST /api/calculate-dcf (src/server.js) *)

(** The handler's computation on a body whose six fields are numbers;
    the value is the JSON object it responds with. *)
Definition calculate_dcf (currentPAT marketCap discountRate : Q)
    (forecastYears : Z) (exitPE expectedPatCagr : Q) : Results.t :=
  let impliedGrowth :=
    solveImpliedGrowthRate currentPAT marketCap discountRate forecastYears
      exitPE in
  let impliedValue :=
    calculateImpliedEquityValue currentPAT expectedPatCagr discountRate
      forecastYears exitPE in
  let expectationGap := expectedPatCagr - or_else_Q impliedGrowth 0 in
  let upside := upside_of impliedValue marketCap in
  {| Results.impliedGrowthRate := impliedGrowth;
     Results.impliedEquityValue := impliedValue;
     Results.expectationGap := expectationGap;
     Results.upside := upside;
     Results.signal := getSignal (Some (Num expectationGap)) |}.

(** *** Auxiliary definitions for the further properties *)

(** Present value of a schedule of projected profits at discount rate
    [r] (a fraction): each profit is discounted by [(1+r)^year]. *)
Definition present_value (r : Q) (schedule : list Projection) : jsnum :=
  fold_left
    (fun acc p => (acc + pat p / Math_pow (1 + r) (year p))%js)
    schedule (Num 0).

(** The profit of the last year of a schedule ([0] for an empty one). *)
Definition final_pat (schedule : list Projection) : jsnum :=
  pat (last schedule {| year := 0; pat := Num 0 |}).

(** A customisation with its zero entries removed. *)
Definition drop_zero_Q (x : option Q) : option Q :=
  match x with
  | Some v => if Qeq_bool v 0 then None else Some v
  | None => None
  end.

Definition drop_zero_Z (x : option Z) : option Z :=
  match x with
  | Some v => if (v =? 0)%Z then None else Some v
  | None => None
  end.

Definition drop_zeros (c : Custom.t) : Custom.t :=
  {| Custom.forecastYears := drop_zero_Z (Custom.forecastYears c);
     Custom.discountRate := drop_zero_Q (Custom.discountRate c);
     Custom.terminalGrowth := drop_zero_Q (Custom.terminalGrowth c);
     Custom.exitPE := drop_zero_Q (Custom.exitPE c);
     Custom.expectedPatCagr := drop_zero_Q (Custom.expectedPatCagr c) |}.

(** The upper bound after it has been lowered to the midpoint [k] times
    while the lower bound stays at [low]. *)
Fixpoint lower_high (k : nat) (low high : Q) : Q :=
  match k with
  | O => high
  | S k' => lower_high k' low ((low + high) / 2)
  end.

(** The entry of a projection schedule for year [i]. *)
Definition projection_at (PAT g : Q) (i : nat) : Projection :=
  {| year := Z.of_nat i; pat := Num (PAT * (1 + g) ^ Z.of_nat i) |}.

(** The signals from the most bearish to the most bullish. *)
Definition signal_rank (s : string) : nat :=
  if String.eqb s "Sell" then 0
  else if String.eqb s "Caution" then 1
  else if String.eqb s "Hold" then 2
  else if String.eqb s "Buy" then 3
  else if String.eqb s "Strong Buy" then 4
  else 5.

(** ** The front end's copy of the engine (src/unnamed/part_000) *)

Record McapInfo : Type := {
  label : string;
  fy : Z;
  dr : Q;
  cagr : Q;
  color : string
}.

Definition getMcapInfo (m : Q) : McapInfo :=
  if Qltb m 500 then
    {| label := "Micro Cap"; fy := 20; dr := 20; cagr := 25;
       color := "#7c3aed" |}
  else if Qltb m 5000 then
    {| label := "Small Cap"; fy := 20; dr := 20; cagr := 25;
       color := "#8b5cf6" |}
  else if Qltb m 20000 then
    {| label := "Mid Cap"; fy := 15; dr := 18; cagr := 18;
       color := "#0891b2" |}
  else if Qltb m 50000 then
    {| label := "Large-Mid"; fy := 15; dr := 16; cagr := 15;
       color := "#0ea5e9" |}
  else if Qltb m 200000 then
    {| label := "Large Cap"; fy := 10; dr := 15; cagr := 12;
       color := "#059669" |}
  else
    {| label := "Mega Cap"; fy := 10; dr := 13; cagr := 10;
       color := "#047857" |}.

Definition calcValue (pat gPct rPct : Q) (n : Z) (pe : Q) : jsnum :=
  if Qle_bool pat 0 || Qle_bool pe 0 || (n <=? 0)%Z then Num 0
  else
    let g := gPct / 100 in
    let r := rPct / 100 in
    let pv :=
      if Qltb (Qabs (r - g)) 0.0001 then
        pvEarnings_loop pat g r (Z.to_nat n) 1%Z (Num 0)
      else
        (Num pat * Num (1 + g)
         * ((Num 1 - Math_pow (1 + g) n * Math_pow (1 + r) (- n))
            / Num (r - g)))%js in
    (pv + (Num pat * Math_pow (1 + g) n * Num pe) / Math_pow (1 + r) n)%js.

(** [solveGrowth]: the same loop with the bracket [-80, 150] and 400
    iterations. *)
Definition solveGrowth (pat mcap rPct : Q) (n : Z) (pe : Q) : option Q :=
  if Qle_bool pat 0 || Qle_bool mcap 0 || Qle_bool pe 0 then None
  else
    Some (snd (bisect (fun mid => calcValue pat mid rPct n pe)
                 mcap (mcap * 0.00001) 400 (-80) 150)).

(** ** Basic facts about the number model *)

Lemma Qltb_true (x y : Q) : Qltb x y = true <-> x < y.
Proof.
  unfold Qltb. rewrite negb_true_iff.
  split; intro H.
  - apply Qnot_le_lt. intro Hle. apply Qle_bool_iff in Hle. congruence.
  - destruct (Qle_bool y x) eqn:E; [|reflexivity].
    apply Qle_bool_iff in E. exfalso. exact (Qlt_not_le _ _ H E).
Qed.

Lemma Qltb_false (x y : Q) : Qltb x y = false <-> y <= x.
Proof.
  unfold Qltb. rewrite negb_false_iff. apply Qle_bool_iff.
Qed.

Lemma Qle_bool_false (x y : Q) : Qle_bool x y = false <-> y < x.
Proof.
  rewrite <- Qltb_true. unfold Qltb.
  destruct (Qle_bool x y); simpl; intuition congruence.
Qed.

Lemma Qeq_bool_false (x y : Q) : Qeq_bool x y = false <-> ~ x == y.
Proof.
  split.
  - apply Qeq_bool_neq.
  - intro H. destruct (Qeq_bool x y) eqn:E; [|reflexivity].
    apply Qeq_bool_iff in E. contradiction.
Qed.

Lemma jeq_trans (a b c : jsnum) : jeq a b -> jeq b c -> jeq a c.
Proof.
  destruct a, b, c; simpl; try tauto. intros H1 H2. now rewrite H1.
Qed.

(** The guard of both functions, as a proposition. *)
Lemma guard3_false (a b : Q) (c : bool) :
  Qle_bool a 0 || Qle_bool b 0 || c = false <-> 0 < a /\ 0 < b /\ c = false.
Proof.
  rewrite !orb_false_iff, !Qle_bool_false. tauto.
Qed.

Lemma guard3_true (a b : Q) (c : bool) :
  Qle_bool a 0 || Qle_bool b 0 || c = true <-> a <= 0 \/ b <= 0 \/ c = true.
Proof.
  rewrite !orb_true_iff, !Qle_bool_iff. tauto.
Qed.

(** ** The model on the reference scenario *)

(** Profit 1737, discount rate 15%, 10 years, exit multiple 45 and an
    expected growth of 13% give an implied equity value between 81379 and
    81380; a gap of 13 - 14.77 is in the "Hold" band; a market cap of 93800
    falls in the "Large Cap" band, and "FMCG" has exit multiple 45. *)
Example reference_scenario :
  (exists v, calculateImpliedEquityValue 1737 13 15 10 45 = Num v
             /\ 81379 < v < 81380)
  /\ getSignal (Some (Num (13 - 14.77))) = "Hold"%string
  /\ category (getDefaultAssumptions 93800 (Some "FMCG"%string))
     = "Large Cap"%string
  /\ exitPE (getDefaultAssumptions 93800 (Some "FMCG"%string)) == 45.
Proof.
  split; [|split; [|split]].
  - eexists. split; [vm_compute; reflexivity|]. split; reflexivity.
  - vm_compute. reflexivity.
  - vm_compute. reflexivity.
  - vm_compute. reflexivity.
Qed.

(** [Math.round(x * 100) / 100] rounds halves towards +Infinity. *)
Example round2_halves :
  round2 1.485 == 1.49 /\ round2 (-0.005) == 0 /\ round2 (-0.015) == -0.01.
Proof. split; [|split]; vm_compute; reflexivity. Qed.

(** With a discount rate below -100% the valuation need not increase with
    the growth rate: over one year at -200% it decreases. *)
Example valuation_decreasing_below_minus_100 :
  lt (calculateImpliedEquityValue 100 10 (-200) 1 1)
     (calculateImpliedEquityValue 100 0 (-200) 1 1) = true.
Proof. vm_compute. reflexivity. Qed.

(** ** C5: degenerate inputs *)

Lemma degenerate_input_zero
    (currentPAT growthRatePct discountRatePct : Q) (forecastPeriod : Z)
    (exitPE : Q) :
  currentPAT <= 0 \/ exitPE <= 0 \/ (forecastPeriod <= 0)%Z ->
  calculateImpliedEquityValue currentPAT growthRatePct discountRatePct
    forecastPeriod exitPE = Num 0.
Proof.
  intro H. unfold calculateImpliedEquityValue.
  replace (Qle_bool currentPAT 0 || Qle_bool exitPE 0
           || (forecastPeriod <=? 0)%Z) with true; [reflexivity|].
  symmetry. apply guard3_true. rewrite Z.leb_le. exact H.
Qed.

(** C5. If currentProfit <= 0, or exitMultiple <= 0, or forecastYears <= 0,
    then calculateImpliedEquityValue returns exactly 0 whatever the other
    arguments are; being a total function it raises no error. *)
Theorem degenerate_input_yields_zero
    (currentPAT growthRatePct discountRatePct : Q) (forecastPeriod : Z)
    (exitPE : Q) :
  currentPAT <= 0 \/ exitPE <= 0 \/ (forecastPeriod <= 0)%Z ->
  calculateImpliedEquityValue currentPAT growthRatePct discountRatePct
    forecastPeriod exitPE = Num 0.
Proof.
  exact (degenerate_input_zero currentPAT growthRatePct discountRatePct
           forecastPeriod exitPE).
Qed.

Lemma degenerate_input_yields_zero_witness :
  calculateImpliedEquityValue 0 15 12 10 20 = Num 0
  /\ calculateImpliedEquityValue 100 15 12 10 (-3) = Num 0
  /\ calculateImpliedEquityValue 100 15 12 0 20 = Num 0.
Proof.
  split; [|split].
  - apply (degenerate_input_yields_zero 0 15 12 10 20).
    left. unfold Qle. simpl. lia.
  - apply (degenerate_input_yields_zero 100 15 12 10 (-3)).
    right. left. unfold Qle. simpl. lia.
  - apply (degenerate_input_yields_zero 100 15 12 0 20).
    right. right. lia.
Defined.

(** ** C1: the valuation formula *)

Lemma Math_pow_num (b : Q) (e : Z) :
  (0 <= e)%Z \/ ~ b == 0 -> Math_pow b e = Num (b ^ e).
Proof.
  intros [H|H]; unfold Math_pow.
  - replace (e <? 0)%Z with false; [reflexivity|].
    symmetry. apply Z.ltb_ge. exact H.
  - apply Qeq_bool_false in H. rewrite H, andb_false_r. reflexivity.
Qed.

Lemma div_num (x y : Q) : ~ y == 0 -> (Num x / Num y)%js = Num (x / y).
Proof.
  intro H. simpl. apply Qeq_bool_false in H. rewrite H. reflexivity.
Qed.

Lemma pvEarnings_loop_fold (PAT g r : Q) (k : nat) :
  forall (j : nat) (acc : jsnum),
    pvEarnings_loop PAT g r k (Z.of_nat j) acc
    = fold_left add
        (map (fun i => (Num PAT * Math_pow (1 + g) (Z.of_nat i)
                        / Math_pow (1 + r) (Z.of_nat i))%js) (seq j k))
        acc.
Proof.
  induction k as [|k IH]; intros j acc; simpl; [reflexivity|].
  replace (Z.of_nat j + 1)%Z with (Z.of_nat (S j)) by lia.
  apply IH.
Qed.

Lemma pvEarnings_loop_regular (PAT g r : Q) :
  ~ 1 + r == 0 ->
  forall (k j : nat) (a : Q),
  exists b : Q,
    pvEarnings_loop PAT g r k (Z.of_nat (S j)) (Num a) = Num b
    /\ b == a + (sum_1_to (j + k) (fun t => PAT * (1 + g) ^ t / (1 + r) ^ t)
                 - sum_1_to j (fun t => PAT * (1 + g) ^ t / (1 + r) ^ t)).
Proof.
  intros Hr k. induction k as [|k IH]; intros j a.
  - exists a. split; [reflexivity|]. rewrite Nat.add_0_r. ring.
  - cbn [pvEarnings_loop].
    rewrite !Math_pow_num by (left; lia).
    cbn [mul]. rewrite div_num by (apply Qpower_not_0; exact Hr).
    cbn [add].
    replace (Z.of_nat (S j) + 1)%Z with (Z.of_nat (S (S j))) by lia.
    destruct (IH (S j) (a + PAT * (1 + g) ^ Z.of_nat (S j)
                              / (1 + r) ^ Z.of_nat (S j))) as [b [Hb Hq]].
    exists b. split; [exact Hb|].
    rewrite Hq.
    replace (j + S k)%nat with (S j + k)%nat by lia.
    cbn [sum_1_to]. ring.
Qed.

Lemma guard_passes (PAT PE : Q) (n : Z) :
  0 < PAT -> 0 < PE -> (1 <= n)%Z ->
  Qle_bool PAT 0 || Qle_bool PE 0 || (n <=? 0)%Z = false.
Proof.
  intros HP HE Hn. apply guard3_false. repeat split; try assumption.
  apply Z.leb_gt. lia.
Qed.

(** Away from a discount rate of -100% every intermediate value is finite
    and the result is the rational the formula denotes. *)
Lemma implied_value_regular
    (currentPAT growthRatePct discountRatePct : Q) (forecastPeriod : Z)
    (exitPE : Q) :
  0 < currentPAT -> 0 < exitPE -> (1 <= forecastPeriod)%Z ->
  let g := growthRatePct / 100 in
  let r := discountRatePct / 100 in
  ~ 1 + r == 0 ->
  jeq (calculateImpliedEquityValue currentPAT growthRatePct
         discountRatePct forecastPeriod exitPE)
      (Num (forecast_component currentPAT g r forecastPeriod
            + terminal_component currentPAT g r forecastPeriod exitPE)).
Proof.
  intros HP HE Hn g r Hr.
  unfold calculateImpliedEquityValue.
  rewrite (guard_passes _ _ _ HP HE Hn).
  fold g. fold r. cbv zeta.
  unfold forecast_component, terminal_component.
  destruct (Qlt_le_dec (Qabs (r - g)) (1 # 10000)) as [Hnear|Hfar].
  - replace (Qltb (Qabs (r - g)) 0.0001) with true
      by (symmetry; apply Qltb_true; exact Hnear).
    destruct (pvEarnings_loop_regular currentPAT g r Hr
                (Z.to_nat forecastPeriod) 0 0) as [b [Hb Hq]].
    change (Z.of_nat 1) with 1%Z in Hb. rewrite Hb.
    rewrite !Math_pow_num by (left; lia).
    cbn [mul]. rewrite div_num by (apply Qpower_not_0; exact Hr).
    cbn [add jeq]. rewrite Hq. cbn [sum_1_to Nat.add]. ring.
  - replace (Qltb (Qabs (r - g)) 0.0001) with false
      by (symmetry; apply Qltb_false; exact Hfar).
    assert (Hrg : ~ r - g == 0).
    { intro E. rewrite E in Hfar. revert Hfar. apply Qlt_not_le.
      reflexivity. }
    rewrite !Math_pow_num by (first [left; lia | right; exact Hr]).
    cbn [mul sub neg add].
    rewrite !div_num by (try exact Hrg; apply Qpower_not_0; exact Hr).
    cbn [mul add jeq].
    field. split; [apply Qpower_not_0; exact Hr | exact Hrg].
Qed.

(** C1. For currentProfit > 0, exitMultiple > 0 and forecastYears n >= 1,
    calculateImpliedEquityValue returns, unrounded, the forecast-period
    component (closed-form growing annuity when |r - g| >= 1e-4, termwise
    sum of PAT (1+g)^t / (1+r)^t for t = 1..n when |r - g| < 1e-4) plus the
    terminal component PAT (1+g)^n exitMultiple / (1+r)^n, where
    g = growthRatePercent / 100 and r = discountRatePercent / 100.  The
    first conjunct reads the formula in JavaScript arithmetic, the second
    over the rationals, where it is defined (1 + r <> 0). *)
Theorem implied_value_is_forecast_plus_terminal
    (currentPAT growthRatePct discountRatePct : Q) (forecastPeriod : Z)
    (exitPE : Q) :
  0 < currentPAT -> 0 < exitPE -> (1 <= forecastPeriod)%Z ->
  let g := growthRatePct / 100 in
  let r := discountRatePct / 100 in
  calculateImpliedEquityValue currentPAT growthRatePct discountRatePct
    forecastPeriod exitPE
  = (forecast_component_js currentPAT g r forecastPeriod
     + terminal_component_js currentPAT g r forecastPeriod exitPE)%js
  /\ (~ 1 + r == 0 ->
      jeq (calculateImpliedEquityValue currentPAT growthRatePct
             discountRatePct forecastPeriod exitPE)
          (Num (forecast_component currentPAT g r forecastPeriod
                + terminal_component currentPAT g r forecastPeriod exitPE))).
Proof.
  intros HP HE Hn g r.
  split; [|apply implied_value_regular; assumption].
  unfold calculateImpliedEquityValue.
  rewrite (guard_passes _ _ _ HP HE Hn).
  fold g. fold r. cbv zeta.
  unfold forecast_component_js, terminal_component_js.
  destruct (Qlt_le_dec (Qabs (r - g)) (1 # 10000)) as [Hnear|Hfar].
  - replace (Qltb (Qabs (r - g)) 0.0001) with true
      by (symmetry; apply Qltb_true; exact Hnear).
    unfold js_sum_1_to.
    rewrite (pvEarnings_loop_fold currentPAT g r (Z.to_nat forecastPeriod) 1).
    reflexivity.
  - replace (Qltb (Qabs (r - g)) 0.0001) with false
      by (symmetry; apply Qltb_false; exact Hfar).
    reflexivity.
Qed.

Lemma implied_value_is_forecast_plus_terminal_witness :
  calculateImpliedEquityValue 1737 13 15 10 45
  = (forecast_component_js 1737 (13 / 100) (15 / 100) 10
     + terminal_component_js 1737 (13 / 100) (15 / 100) 10 45)%js
  /\ (~ 1 + 15 / 100 == 0 ->
      jeq (calculateImpliedEquityValue 1737 13 15 10 45)
          (Num (forecast_component 1737 (13 / 100) (15 / 100) 10
                + terminal_component 1737 (13 / 100) (15 / 100) 10 45))).
Proof.
  apply (implied_value_is_forecast_plus_terminal 1737 13 15 10 45);
    [reflexivity | reflexivity | lia].
Defined.

(** ** The valuation as a polynomial in (1+g)/(1+r) *)

Lemma Qpower_S (q : Q) (k : nat) : q ^ Z.of_nat (S k) == q * q ^ Z.of_nat k.
Proof.
  rewrite Nat2Z.inj_succ. unfold Z.succ.
  rewrite Qpower_plus' by lia. rewrite Qpower_1_r. ring.
Qed.

Lemma sum_terms_geometric (PAT x d : Q) (k : nat) :
  sum_1_to k (fun t => PAT * x ^ t / d ^ t) == PAT * geometric_sum (x / d) k.
Proof.
  unfold geometric_sum.
  induction k as [|k IH]; cbn [sum_1_to]; [ring|].
  rewrite IH, Qdiv_power. unfold Qdiv. ring.
Qed.

Lemma geometric_sum_closed (q : Q) (k : nat) :
  geometric_sum q k * (1 - q) == q * (1 - q ^ Z.of_nat k).
Proof.
  unfold geometric_sum.
  induction k as [|k IH].
  - cbn [sum_1_to]. change (Z.of_nat 0) with 0%Z. rewrite Qpower_0_r. ring.
  - cbn [sum_1_to]. rewrite Qmult_plus_distr_l, IH.
    rewrite (Qpower_S q k). ring.
Qed.

Lemma closed_form_geometric (PAT x d : Q) (k : nat) :
  ~ d == 0 -> ~ d - x == 0 ->
  PAT * x * (1 - x ^ Z.of_nat k * d ^ (- Z.of_nat k)) / (d - x)
  == PAT * geometric_sum (x / d) k.
Proof.
  intros Hd Hdx.
  assert (Hq : ~ 1 - x / d == 0).
  { intro E. apply Hdx.
    setoid_replace (d - x) with (d * (1 - x / d)) by (field; exact Hd).
    rewrite E. ring. }
  apply (Qmult_inj_r _ _ (1 - x / d) Hq).
  setoid_replace (PAT * geometric_sum (x / d) k * (1 - x / d))
    with (PAT * (geometric_sum (x / d) k * (1 - x / d))) by ring.
  rewrite geometric_sum_closed.
  rewrite Qpower_opp, Qdiv_power.
  field. split; [|split]; try assumption.
  apply Qpower_not_0. exact Hd.
Qed.

Lemma implied_value_polynomial
    (currentPAT growthRatePct discountRatePct : Q) (forecastPeriod : Z)
    (exitPE : Q) :
  0 < currentPAT -> 0 < exitPE -> (1 <= forecastPeriod)%Z ->
  ~ 1 + discountRatePct / 100 == 0 ->
  jeq (calculateImpliedEquityValue currentPAT growthRatePct
         discountRatePct forecastPeriod exitPE)
      (Num (currentPAT
            * value_multiple
                ((1 + growthRatePct / 100) / (1 + discountRatePct / 100))
                exitPE (Z.to_nat forecastPeriod))).
Proof.
  intros HP HE Hn Hr.
  eapply jeq_trans; [apply implied_value_regular; assumption|].
  cbn [jeq]. unfold forecast_component, terminal_component, value_multiple.
  set (g := growthRatePct / 100) in *.
  set (r := discountRatePct / 100) in *.
  remember (Z.to_nat forecastPeriod) as k eqn:Hk.
  assert (Hnk : forecastPeriod = Z.of_nat k) by lia.
  rewrite Hnk. clear Hk Hnk Hn.
  assert (Hterm : (currentPAT * (1 + g) ^ Z.of_nat k * exitPE)
                  / (1 + r) ^ Z.of_nat k
                  == currentPAT * (exitPE * ((1 + g) / (1 + r)) ^ Z.of_nat k)).
  { rewrite Qdiv_power. field. apply Qpower_not_0. exact Hr. }
  rewrite Hterm.
  destruct (Qlt_le_dec (Qabs (r - g)) (1 # 10000)) as [Hnear|Hfar].
  - rewrite sum_terms_geometric. ring.
  - assert (Hrg : ~ (1 + r) - (1 + g) == 0).
    { intro E. assert (E' : r - g == 0) by (rewrite <- E; ring).
      rewrite E' in Hfar. revert Hfar. apply Qlt_not_le. reflexivity. }
    setoid_replace (r - g) with ((1 + r) - (1 + g)) by ring.
    rewrite closed_form_geometric by assumption. ring.
Qed.

(** ** Monotonicity of the polynomial *)

Lemma pow_le_mono (a b : Q) (k : nat) :
  0 <= a -> a <= b -> a ^ Z.of_nat k <= b ^ Z.of_nat k.
Proof.
  intros Ha Hab. induction k as [|k IH].
  - change (Z.of_nat 0) with 0%Z. rewrite !Qpower_0_r. apply Qle_refl.
  - rewrite !Qpower_S. apply Qmult_le_compat_nonneg.
    + split; assumption.
    + split; [apply Qpower_0_le; exact Ha | exact IH].
Qed.

Lemma pow_lt_mono (a b : Q) (k : nat) :
  0 <= a -> a < b -> a ^ Z.of_nat (S k) < b ^ Z.of_nat (S k).
Proof.
  intros Ha Hab.
  assert (Hb : 0 < b) by (eapply Qle_lt_trans; eassumption).
  rewrite !Qpower_S.
  apply Qle_lt_trans with (a * b ^ Z.of_nat k).
  - apply Qmult_le_compat_nonneg.
    + split; [exact Ha | apply Qle_refl].
    + split; [apply Qpower_0_le; exact Ha|].
      apply pow_le_mono; [exact Ha | apply Qlt_le_weak; exact Hab].
  - apply Qmult_lt_compat_r; [|exact Hab].
    apply Qpower_0_lt. exact Hb.
Qed.

Lemma geometric_sum_nonneg (q : Q) (k : nat) : 0 <= q -> 0 <= geometric_sum q k.
Proof.
  intro Hq. unfold geometric_sum.
  induction k as [|k IH]; cbn [sum_1_to]; [apply Qle_refl|].
  pose proof (Qpower_0_le q (Z.of_nat (S k)) Hq). lra.
Qed.

Lemma geometric_sum_le_mono (a b : Q) (k : nat) :
  0 <= a -> a <= b -> geometric_sum a k <= geometric_sum b k.
Proof.
  intros Ha Hab. unfold geometric_sum.
  induction k as [|k IH]; cbn [sum_1_to]; [apply Qle_refl|].
  pose proof (pow_le_mono a b (S k) Ha Hab). lra.
Qed.

Lemma value_multiple_nonneg (q PE : Q) (k : nat) :
  0 <= q -> 0 <= PE -> 0 <= value_multiple q PE k.
Proof.
  intros Hq HE. unfold value_multiple.
  pose proof (geometric_sum_nonneg q k Hq).
  pose proof (Qmult_le_0_compat _ _ HE (Qpower_0_le q (Z.of_nat k) Hq)).
  lra.
Qed.

Lemma value_multiple_lt_mono (a b PE : Q) (k : nat) :
  0 <= a -> a < b -> 0 < PE ->
  value_multiple a PE (S k) < value_multiple b PE (S k).
Proof.
  intros Ha Hab HE. unfold value_multiple.
  pose proof (geometric_sum_le_mono a b (S k) Ha (Qlt_le_weak _ _ Hab)).
  pose proof (pow_lt_mono a b k Ha Hab) as Hp.
  apply (Qmult_lt_l _ _ PE HE) in Hp. lra.
Qed.

Lemma jeq_num_inv (a : jsnum) (x : Q) :
  jeq a (Num x) -> exists v, a = Num v /\ v == x.
Proof.
  destruct a; simpl; try tauto. intro H. eexists. split; [reflexivity|exact H].
Qed.

Lemma percent (x : Q) : x / 100 == x * (1 # 100).
Proof. reflexivity. Qed.

Lemma half (x : Q) : x / 2 == x * (1 # 2).
Proof. reflexivity. Qed.

(** Linear arithmetic with the divisions by 100 and by 2 written as
    products. *)
Ltac frac_lra := rewrite ?percent, ?half in *; lra.

Lemma div_le_compat (a b d : Q) : 0 < d -> a <= b -> a / d <= b / d.
Proof.
  intros Hd Hab. unfold Qdiv.
  apply Qmult_le_compat_r; [exact Hab|].
  apply Qlt_le_weak, Qinv_lt_0_compat. exact Hd.
Qed.

Lemma div_lt_compat (a b d : Q) : 0 < d -> a < b -> a / d < b / d.
Proof.
  intros Hd Hab. unfold Qdiv.
  apply Qmult_lt_compat_r; [apply Qinv_lt_0_compat; exact Hd | exact Hab].
Qed.

Lemma div_scale_compat (a b c d : Q) :
  0 < d -> b <= c * a -> b / d <= c * (a / d).
Proof.
  intros Hd H. unfold Qdiv. rewrite Qmult_assoc.
  apply Qmult_le_compat_r; [exact H|].
  apply Qlt_le_weak, Qinv_lt_0_compat. exact Hd.
Qed.

(** The ratio (1+g)/(1+r) is monotone in the growth percentage when the
    discount rate is above -100%. *)
Lemma ratio_lt_mono (g1 g2 rp : Q) :
  -100 < rp -> g1 < g2 ->
  (1 + g1 / 100) / (1 + rp / 100) < (1 + g2 / 100) / (1 + rp / 100).
Proof.
  intros Hr Hg.
  assert (Hd : 0 < 1 + rp / 100) by frac_lra.
  apply div_lt_compat; [exact Hd | frac_lra].
Qed.

Lemma ratio_nonneg (gp rp : Q) :
  -100 < rp -> -100 <= gp -> 0 <= (1 + gp / 100) / (1 + rp / 100).
Proof.
  intros Hr Hg.
  assert (Hd : 0 < 1 + rp / 100) by frac_lra.
  apply Qle_shift_div_l; [exact Hd | frac_lra].
Qed.

Lemma implied_value_lt_mono
    (currentPAT g1 g2 discountRatePct : Q) (forecastPeriod : Z) (exitPE : Q) :
  0 < currentPAT -> 0 < exitPE -> (1 <= forecastPeriod)%Z ->
  -100 < discountRatePct -> -100 <= g1 -> g1 < g2 ->
  exists v1 v2,
    calculateImpliedEquityValue currentPAT g1 discountRatePct
      forecastPeriod exitPE = Num v1
    /\ calculateImpliedEquityValue currentPAT g2 discountRatePct
         forecastPeriod exitPE = Num v2
    /\ v1 < v2.
Proof.
  intros HP HE Hn Hr Hg1 Hg.
  assert (Hd : ~ 1 + discountRatePct / 100 == 0) by frac_lra.
  destruct (jeq_num_inv _ _ (implied_value_polynomial currentPAT g1
              discountRatePct forecastPeriod exitPE HP HE Hn Hd))
    as [v1 [E1 Q1]].
  destruct (jeq_num_inv _ _ (implied_value_polynomial currentPAT g2
              discountRatePct forecastPeriod exitPE HP HE Hn Hd))
    as [v2 [E2 Q2]].
  exists v1, v2. split; [exact E1|]. split; [exact E2|].
  rewrite Q1, Q2.
  apply Qmult_lt_l; [exact HP|].
  destruct (Z.to_nat forecastPeriod) as [|k] eqn:Ek; [lia|].
  apply value_multiple_lt_mono; try assumption.
  - apply ratio_nonneg; assumption.
  - apply ratio_lt_mono; assumption.
Qed.

(** ** C4: monotonicity in the growth rate *)



(** ** C7: sign of the implied value *)




(** ** C8: signal classification *)

(** C8 fails as stated: a gap of exactly 5.0 is not above 5 but is above
    2, so the second band matches and the signal is "Buy", not "Hold". *)
Lemma signal_at_five_is_not_hold :
  getSignal (Some (Num 5)) <> "Hold"%string
  /\ getSignal (Some (Num 5)) = "Buy"%string.
Proof.
  split; [|reflexivity]. vm_compute. discriminate.
Qed.

(** C8 (amended). A gap of exactly 5.0 yields "Buy", 5.01 "Strong Buy",
    exactly -2.0 "Hold" and -2.01 "Caution"; an undefined gap gives "N/A";
    and in general the bands gap > 5 "Strong Buy", gap > 2 "Buy",
    gap < -5 "Sell", gap < -2 "Caution", otherwise "Hold" are tried in that
    order, the first match winning. *)
Theorem signal_boundaries_and_bands :
  getSignal (Some (Num 5)) = "Buy"%string
  /\ getSignal (Some (Num 5.01)) = "Strong Buy"%string
  /\ getSignal (Some (Num (-2))) = "Hold"%string
  /\ getSignal (Some (Num (-2.01))) = "Caution"%string
  /\ getSignal None = "N/A"%string
  /\ (forall gap : option jsnum, getSignal gap = classify_signal gap)
  /\ (forall x : Q,
        (5 < x -> getSignal (Some (Num x)) = "Strong Buy"%string)
        /\ (2 < x <= 5 -> getSignal (Some (Num x)) = "Buy"%string)
        /\ (x < -5 -> getSignal (Some (Num x)) = "Sell"%string)
        /\ (-5 <= x < -2 -> getSignal (Some (Num x)) = "Caution"%string)
        /\ (-2 <= x <= 2 -> getSignal (Some (Num x)) = "Hold"%string)).
Proof.
  repeat (split; [reflexivity|]).
  split.
  - intros [gap|]; [|reflexivity].
    unfold getSignal, classify_signal, signal_bands. cbn [find fst snd].
    destruct (lt (Num 5) gap); [reflexivity|].
    destruct (lt (Num 2) gap); [reflexivity|].
    destruct (lt gap (Num (-5))); [reflexivity|].
    destruct (lt gap (Num (-2))); reflexivity.
  - intro x. unfold getSignal. cbn [lt].
    repeat split; intro H;
      destruct (Qltb 5 x) eqn:E1; destruct (Qltb 2 x) eqn:E2;
      destruct (Qltb x (-5)) eqn:E3; destruct (Qltb x (-2)) eqn:E4;
      try reflexivity; exfalso;
      rewrite ?Qltb_true, ?Qltb_false in *; lra.
Qed.

(** ** C9: default assumptions *)

Lemma prefix_app (a s : string) :
  prefix a s = true <-> exists b, s = (a ++ b)%string.
Proof.
  revert s. induction a as [|c a IH]; intro s.
  - split; [intros _; exists s; reflexivity|].
    intros _. destruct s; reflexivity.
  - destruct s as [|c' s]; cbn [prefix].
    + split; [discriminate|]. intros [b Hb]. discriminate Hb.
    + destruct (ascii_dec c c') as [->|Hc].
      * rewrite IH. split; intros [b Hb]; exists b.
        -- cbn. now rewrite Hb.
        -- cbn in Hb. now inversion Hb.
      * split; [discriminate|]. intros [b Hb]. cbn in Hb.
        inversion Hb. congruence.
Qed.

Lemma includes_contains (s key : string) :
  includes s key = true <-> contains s key.
Proof.
  unfold contains.
  induction s as [|c s IH]; cbn [includes].
  - destruct (prefix key "") eqn:E.
    + split; [intros _|reflexivity].
      apply prefix_app in E. destruct E as [b Hb].
      exists ""%string, b. exact Hb.
    + split; [discriminate|].
      intros [before [after H]].
      destruct before; [|discriminate H]. cbn in H.
      assert (prefix key "" = true) by (apply prefix_app; eauto).
      congruence.
  - destruct (prefix key (String c s)) eqn:E.
    + split; [intros _|reflexivity].
      apply prefix_app in E. destruct E as [b Hb].
      exists ""%string, b. exact Hb.
    + rewrite IH. split.
      * intros [before [after H]].
        exists (String c before), after. cbn. now rewrite H.
      * intros [before [after H]].
        destruct before as [|c' before].
        -- cbn in H.
           assert (prefix key (String c s) = true)
             by (apply prefix_app; eauto).
           congruence.
        -- cbn in H. inversion H. eauto.
Qed.

(** [find] returns the first element that satisfies the test. *)
Lemma find_first {A : Type} (f : A -> bool) (l : list A) (x : A) :
  find f l = Some x ->
  exists l1 l2, l = l1 ++ x :: l2 /\ f x = true
                /\ forall y, In y l1 -> f y = false.
Proof.
  induction l as [|a l IH]; cbn [find]; [discriminate|].
  destruct (f a) eqn:E.
  - intro H. inversion H; subst.
    exists [], l. repeat split; [exact E|]. intros y [].
  - intro H. destruct (IH H) as [l1 [l2 [Hl [Hx Hy]]]].
    exists (a :: l1), l2. subst l. repeat split; [exact Hx|].
    intros y [<-|Hin]; [exact E | apply Hy; exact Hin].
Qed.

Lemma sector_scan_find (s : string) (entries : list (string * Q)) (d : Q) :
  sector_scan s entries d
  = match find (fun entry => includes s (fst entry)) entries with
    | Some entry => snd entry
    | None => d
    end.
Proof.
  induction entries as [|[key val] rest IH]; cbn [sector_scan find fst];
    [reflexivity|].
  destruct (includes s key); [reflexivity | exact IH].
Qed.

Lemma exitPE_default (m : Q) (sector : option string) :
  exitPE (getDefaultAssumptions m sector)
  = match sector with
    | None | Some EmptyString => 20
    | Some label => sector_scan (toLowerCase label) SECTOR_PE 20
    end.
Proof.
  unfold getDefaultAssumptions.
  destruct (Qltb m 500), (Qltb m 5000), (Qltb m 20000), (Qltb m 50000),
    (Qltb m 200000); reflexivity.
Qed.

(** C9. getDefaultAssumptions is a lookup: the market cap falls in one of
    six ordered bands delimited by 500, 5000, 20000, 50000 and 200000, and
    the band fixes forecastYears, discountRate and expectedGrowth (499 and
    500 lie in different bands); the exit multiple is that of the first
    entry of the sector table whose key is a substring of the lower-cased
    label, and 20 when the label is absent, empty or matches no entry;
    "Indian IT Services" resolves to the multiple of the "it" entry. *)
Theorem default_assumptions_lookup :
  (forall (marketCap : Q) (sector : option string),
      band_of (getDefaultAssumptions marketCap sector)
      = nth (band_index marketCap) band_table (0%Z, 0, 0, ""%string))
  /\ (band_index 499 = 0%nat /\ band_index 500 = 1%nat
      /\ category (getDefaultAssumptions 499 (Some ""%string))
         <> category (getDefaultAssumptions 500 (Some ""%string)))
  /\ (forall (marketCap : Q) (label : string),
        exitPE (getDefaultAssumptions marketCap (Some label))
        = match sector_match label with
          | Some entry => snd entry
          | None => 20
          end)
  /\ (forall (label key : string) (multiple : Q),
        sector_match label = Some (key, multiple) ->
        contains (toLowerCase label) key
        /\ exists earlier later,
             SECTOR_PE = earlier ++ (key, multiple) :: later
             /\ forall entry, In entry earlier ->
                  ~ contains (toLowerCase label) (fst entry))
  /\ (forall label : string,
        sector_match label = None ->
        forall entry, In entry SECTOR_PE ->
          ~ contains (toLowerCase label) (fst entry))
  /\ (forall entry, In entry SECTOR_PE -> toLowerCase (fst entry) = fst entry)
  /\ (forall marketCap : Q,
        exitPE (getDefaultAssumptions marketCap None) = 20
        /\ exitPE (getDefaultAssumptions marketCap (Some ""%string)) = 20)
  /\ (sector_match "Indian IT Services" = Some ("it"%string, 22)
      /\ forall marketCap : Q,
           exitPE (getDefaultAssumptions marketCap
                     (Some "Indian IT Services"%string)) = 22).
Proof.
  split; [|split; [|split; [|split; [|split; [|split; [|split]]]]]].
  - intros m sector.
    unfold band_of, getDefaultAssumptions, band_index, band_boundaries, Qltb.
    cbn [filter].
    destruct (Qle_bool 500 m) eqn:E1; destruct (Qle_bool 5000 m) eqn:E2;
      destruct (Qle_bool 20000 m) eqn:E3; destruct (Qle_bool 50000 m) eqn:E4;
      destruct (Qle_bool 200000 m) eqn:E5;
      cbn [negb]; try reflexivity; exfalso;
      rewrite ?Qle_bool_iff, ?Qle_bool_false in *; lra.
  - repeat split; try reflexivity. cbn. discriminate.
  - intros m label. rewrite exitPE_default. unfold sector_match.
    destruct label as [|c label]; [reflexivity|].
    apply sector_scan_find.
  - intros label key multiple H. unfold sector_match in H.
    destruct (find_first _ _ _ H) as [l1 [l2 [Hl [Hx Hy]]]].
    split; [apply includes_contains; exact Hx|].
    exists l1, l2. split; [exact Hl|].
    intros entry Hin Hc. apply includes_contains in Hc.
    rewrite (Hy entry Hin) in Hc. discriminate.
  - intros label H entry Hin Hc. unfold sector_match in H.
    apply includes_contains in Hc.
    rewrite (find_none _ _ H entry Hin) in Hc. discriminate.
  - intros entry Hin. unfold SECTOR_PE in Hin. cbn [In] in Hin.
    repeat (destruct Hin as [<-|Hin]; [reflexivity|]). destruct Hin.
  - intro m. rewrite !exitPE_default. split; reflexivity.
  - split; [reflexivity|]. intro m. rewrite exitPE_default. reflexivity.
Qed.

(** ** The bisection loop *)

Section BisectLoop.

Variable val : Q -> jsnum.
Variables target tolerance : Q.

Local Abbreviation hit := (within_tolerance val target tolerance).
Local Abbreviation mids := (mid_at val target).

Lemma mid_at_shift (b : Q * Q) (k : nat) :
  mids b (S k) = mids (narrow val target b) k.
Proof. reflexivity. Qed.

(** The loop either stops at the first iteration [k] whose midpoint is
    within the tolerance, or uses up its budget. *)
Lemma bisect_trace (iters : nat) :
  forall low high : Q,
    (exists k, (k < iters)%nat
       /\ (forall j, (j < k)%nat -> hit (mids (low, high) j) = false)
       /\ hit (mids (low, high) k) = true
       /\ bisect val target tolerance iters low high
          = (map (mids (low, high)) (seq 0 (S k)),
             round2 (mids (low, high) k)))
    \/ ((forall j, (j < iters)%nat -> hit (mids (low, high) j) = false)
        /\ bisect val target tolerance iters low high
           = (map (mids (low, high)) (seq 0 iters),
              round2 (mids (low, high) iters))).
Proof.
  induction iters as [|i IH]; intros low high.
  - right. split; [intros j Hj; lia | reflexivity].
  - cbn [bisect].
    change ((low + high) / 2) with (mids (low, high) 0).
    destruct (lt (abs (val (mids (low, high) 0) - Num target)%js)
                 (Num tolerance)) eqn:Hhit.
    + left. exists 0%nat. repeat split; [lia | intros j Hj; lia | exact Hhit].
    + assert (Hnext :
        (if lt (val (mids (low, high) 0)) (Num target)
         then bisect val target tolerance i (mids (low, high) 0) high
         else bisect val target tolerance i low (mids (low, high) 0))
        = bisect val target tolerance i
            (fst (narrow val target (low, high)))
            (snd (narrow val target (low, high)))).
      { unfold narrow, below_target. cbn [fst snd].
        change (midpoint (low, high)) with (mids (low, high) 0).
        destruct (lt (val (mids (low, high) 0)) (Num target)); reflexivity. }
      rewrite Hnext. clear Hnext.
      destruct (narrow val target (low, high)) as [low' high'] eqn:Hn.
      cbn [fst snd].
      assert (Hs : forall j, mids (low, high) (S j) = mids (low', high') j).
      { intro j. rewrite mid_at_shift, Hn. reflexivity. }
      assert (Hmap : forall m,
                map (mids (low, high)) (seq 0 (S m))
                = mids (low, high) 0 :: map (mids (low', high')) (seq 0 m)).
      { intro m. cbn [seq map]. f_equal.
        rewrite <- seq_shift, map_map.
        apply map_ext. intro j. apply Hs. }
      destruct (IH low' high') as [[k [Hk [Hbefore [Hat Heq]]]]|[Hnone Heq]].
      * left. exists (S k). split; [lia|]. split; [|split].
        -- intros [|j] Hj; [exact Hhit|]. rewrite Hs. apply Hbefore. lia.
        -- rewrite Hs. exact Hat.
        -- rewrite Heq. cbn [fst snd]. rewrite (Hmap (S k)), Hs.
           reflexivity.
      * right. split.
        -- intros [|j] Hj; [exact Hhit|]. rewrite Hs. apply Hnone. lia.
        -- rewrite Heq. cbn [fst snd]. rewrite (Hmap i), Hs. reflexivity.
Qed.

End BisectLoop.

Lemma solver_guard_passes (PAT target PE : Q) :
  0 < PAT -> 0 < target -> 0 < PE ->
  Qle_bool PAT 0 || Qle_bool target 0 || Qle_bool PE 0 = false.
Proof.
  intros HP HT HE. rewrite !orb_false_iff, !Qle_bool_false. tauto.
Qed.

Lemma solver_run_unfold (PAT target r : Q) (n : Z) (PE : Q) :
  0 < PAT -> 0 < target -> 0 < PE ->
  forall out : list Q * Q,
    out = bisect (fun mid => calculateImpliedEquityValue PAT mid r n PE)
            target (target * 0.00001) maxIterations (-90) 200 ->
    solveImpliedGrowthRate_run PAT target r n PE = (fst out, Some (snd out)).
Proof.
  intros HP HT HE out ->. unfold solveImpliedGrowthRate_run.
  rewrite (solver_guard_passes _ _ _ HP HT HE). reflexivity.
Qed.

(** ** C2: the bisection algorithm *)



(** ** C6: the solver's no-value result *)

(** C6. solveImpliedGrowthRate returns the no-value sentinel (JavaScript's
    null, and no number) exactly when currentProfit <= 0 or
    targetEquityValue <= 0 or exitMultiple <= 0; on such inputs the
    valuation function is not evaluated, and no error is raised (the
    function is total). *)
Theorem solver_null_iff_degenerate
    (currentPAT marketCap discountRatePct : Q) (forecastPeriod : Z)
    (exitPE : Q) :
  (solveImpliedGrowthRate currentPAT marketCap discountRatePct
     forecastPeriod exitPE = None
   <-> currentPAT <= 0 \/ marketCap <= 0 \/ exitPE <= 0)
  /\ (currentPAT <= 0 \/ marketCap <= 0 \/ exitPE <= 0 ->
      valuation_calls currentPAT marketCap discountRatePct forecastPeriod
        exitPE = []).
Proof.
  unfold solveImpliedGrowthRate, valuation_calls, solveImpliedGrowthRate_run.
  destruct (Qle_bool currentPAT 0 || Qle_bool marketCap 0
            || Qle_bool exitPE 0) eqn:G.
  - apply guard3_true in G. rewrite Qle_bool_iff in G.
    split; [split|]; intros _; [exact G | reflexivity | reflexivity].
  - apply guard3_false in G. destruct G as [HP [HT HE]].
    apply Qle_bool_false in HE.
    split; [split|]; cbn [snd].
    + discriminate.
    + intros [H|[H|H]]; exfalso; lra.
    + intros [H|[H|H]]; exfalso; lra.
Qed.

Lemma solver_null_iff_degenerate_witness :
  solveImpliedGrowthRate 0 93800 15 10 45 = None
  /\ valuation_calls 0 93800 15 10 45 = [].
Proof.
  destruct (solver_null_iff_degenerate 0 93800 15 10 45) as [[_ Hnull] Hcalls].
  split; [apply Hnull | apply Hcalls]; left; unfold Qle; simpl; lia.
Defined.

(** ** C10: non-positive horizon at the solver *)

Lemma bisect_zero_valuation (val : Q -> jsnum) (target tolerance : Q) :
  (forall g, val g = Num 0) -> 0 < target -> tolerance <= target ->
  forall (iters : nat) (low high : Q),
    bisect val target tolerance iters low high
    = (map (fun j => (raise_low j low high + high) / 2) (seq 0 iters),
       round2 ((raise_low iters low high + high) / 2)).
Proof.
  intros Hval HT Htol iters.
  induction iters as [|i IH]; intros low high; [reflexivity|].
  cbn [bisect]. rewrite Hval. cbn [sub neg add abs lt].
  replace (Qltb (Qabs (0 + - target)) tolerance) with false.
  2:{ symmetry. apply Qltb_false.
      rewrite Qplus_0_l, Qabs_opp, Qabs_pos by lra. exact Htol. }
  replace (Qltb 0 target) with true by (symmetry; apply Qltb_true; exact HT).
  rewrite IH. cbn [fst snd raise_low seq map]. f_equal. f_equal.
  rewrite <- seq_shift, map_map. reflexivity.
Qed.

(** C10. With currentProfit > 0, targetEquityValue > 0 and
    exitMultiple > 0 but forecastYears <= 0 the solver does not return the
    no-value sentinel: the valuation is 0 at every midpoint, so each of the
    500 iterations raises the lower bound, and the result is the number
    200. *)
Theorem solver_nonpositive_horizon_returns_200
    (currentPAT marketCap discountRatePct : Q) (forecastPeriod : Z)
    (exitPE : Q) :
  0 < currentPAT -> 0 < marketCap -> 0 < exitPE -> (forecastPeriod <= 0)%Z ->
  (exists v,
      solveImpliedGrowthRate currentPAT marketCap discountRatePct
        forecastPeriod exitPE = Some v
      /\ v == 200)
  /\ valuation_calls currentPAT marketCap discountRatePct forecastPeriod exitPE
     = map (fun j => (raise_low j (-90) 200 + 200) / 2) (seq 0 500%nat)
  /\ forall g, In g (valuation_calls currentPAT marketCap discountRatePct
                       forecastPeriod exitPE) ->
       calculateImpliedEquityValue currentPAT g discountRatePct
         forecastPeriod exitPE = Num 0.
Proof.
  intros HP HT HE Hn.
  assert (Hzero : forall g, calculateImpliedEquityValue currentPAT g
                    discountRatePct forecastPeriod exitPE = Num 0).
  { intro g. apply degenerate_input_zero. right. right. exact Hn. }
  unfold solveImpliedGrowthRate, valuation_calls.
  rewrite (solver_run_unfold _ _ _ _ _ HP HT HE _ eq_refl).
  rewrite (bisect_zero_valuation _ marketCap (marketCap * 0.00001) Hzero HT)
    by lra.
  cbn [fst snd]. split; [|split].
  - eexists. split; [reflexivity|]. vm_compute. reflexivity.
  - reflexivity.
  - intros g _. apply Hzero.
Qed.

Lemma solver_nonpositive_horizon_returns_200_witness :
  exists v, solveImpliedGrowthRate 1737 93800 15 0 45 = Some v /\ v == 200.
Proof.
  apply (solver_nonpositive_horizon_returns_200 1737 93800 15 0 45);
    first [reflexivity | lia].
Defined.

(** ** Convergence of the bisection *)

Lemma ratio_bound_small : ratio_bound < 1 + 0.00001.
Proof. vm_compute. reflexivity. Qed.

Lemma growth_factor_ge_1 : 1 <= growth_factor.
Proof. vm_compute. discriminate. Qed.

Lemma value_multiple_le_mono (a b PE : Q) (k : nat) :
  0 <= a -> a <= b -> 0 <= PE ->
  value_multiple a PE k <= value_multiple b PE k.
Proof.
  intros Ha Hab HE. unfold value_multiple.
  pose proof (geometric_sum_le_mono a b k Ha Hab).
  pose proof (pow_le_mono a b k Ha Hab) as Hp.
  apply (Qmult_le_compat_r _ _ PE) in Hp; [|exact HE].
  rewrite !(Qmult_comm _ PE) in Hp. lra.
Qed.

Lemma pow_scale (c q : Q) (k j : nat) :
  0 <= q -> 1 <= c -> (j <= k)%nat ->
  (c * q) ^ Z.of_nat j <= c ^ Z.of_nat k * q ^ Z.of_nat j.
Proof.
  intros Hq Hc Hjk. rewrite Qmult_power.
  apply Qmult_le_compat_r; [|apply Qpower_0_le; exact Hq].
  apply Qpower_le_compat_l; [lia | exact Hc].
Qed.

Lemma geometric_sum_scale (c q : Q) (k j : nat) :
  0 <= q -> 1 <= c -> (j <= k)%nat ->
  geometric_sum (c * q) j <= c ^ Z.of_nat k * geometric_sum q j.
Proof.
  intros Hq Hc. unfold geometric_sum.
  induction j as [|j IH]; intro Hjk; cbn [sum_1_to].
  - rewrite Qmult_0_r. apply Qle_refl.
  - pose proof (IH ltac:(lia)) as H1.
    pose proof (pow_scale c q k (S j) Hq Hc Hjk) as H2.
    rewrite Qmult_plus_distr_r. lra.
Qed.

Lemma value_multiple_scale (q1 q2 c PE : Q) (k : nat) :
  0 <= q1 -> q1 <= q2 -> q2 <= c * q1 -> 1 <= c -> 0 <= PE ->
  value_multiple q2 PE k <= c ^ Z.of_nat k * value_multiple q1 PE k.
Proof.
  intros H1 H12 H2 Hc HE.
  assert (H0 : 0 <= q2) by lra.
  apply Qle_trans with (value_multiple (c * q1) PE k).
  - apply value_multiple_le_mono; assumption.
  - unfold value_multiple.
    pose proof (geometric_sum_scale c q1 k k H1 Hc (le_n k)) as Hg.
    pose proof (pow_scale c q1 k k H1 Hc (le_n k)) as Hp.
    apply (Qmult_le_compat_r _ _ PE) in Hp; [|exact HE].
    rewrite Qmult_plus_distr_r.
    setoid_replace (c ^ Z.of_nat k * (PE * q1 ^ Z.of_nat k))
      with (c ^ Z.of_nat k * q1 ^ Z.of_nat k * PE) by ring.
    rewrite (Qmult_comm PE). lra.
Qed.

Lemma round2_close (m : Q) : Qabs (round2 m - m) <= 1 # 200.
Proof.
  unfold round2, Math_round.
  pose proof (Qfloor_le (m * 100 + (1 # 2))) as Hle.
  pose proof (Qlt_floor (m * 100 + (1 # 2))) as Hlt.
  rewrite inject_Z_plus in Hlt.
  change (inject_Z 1) with 1 in Hlt.
  set (f := inject_Z (Qfloor (m * 100 + (1 # 2)))) in *.
  apply Qabs_Qle_condition. split; frac_lra.
Qed.

Section Convergence.

Variables (PAT T rp PE : Q) (n : Z) (gstar : Q).
Hypothesis HP : 0 < PAT.
Hypothesis HT : 0 < T.
Hypothesis HE : 0 < PE.
Hypothesis Hr : -100 < rp.
Hypothesis Hn : (1 <= n <= 30)%Z.
Hypothesis Hlo : -90 <= gstar.
Hypothesis Hhi : gstar <= 200.
Hypothesis Hroot : jeq (calculateImpliedEquityValue PAT gstar rp n PE) (Num T).

Local Abbreviation val := (fun g => calculateImpliedEquityValue PAT g rp n PE).
Local Abbreviation V := (poly_value PAT rp PE n).
Local Abbreviation tol := (T * 0.00001).

Lemma val_poly (g : Q) : exists v, val g = Num v /\ v == V g.
Proof.
  apply jeq_num_inv. apply implied_value_polynomial; try assumption.
  - lia.
  - frac_lra.
Qed.

Lemma poly_root : V gstar == T.
Proof.
  destruct (val_poly gstar) as [v [E Hv]].
  rewrite E in Hroot. cbn [jeq] in Hroot. rewrite <- Hv. exact Hroot.
Qed.

Lemma poly_le_mono (g1 g2 : Q) : -100 <= g1 -> g1 <= g2 -> V g1 <= V g2.
Proof.
  intros H1 H12. unfold poly_value.
  apply Qmult_le_l; [exact HP|].
  apply value_multiple_le_mono.
  - apply ratio_nonneg; assumption.
  - apply div_le_compat; frac_lra.
  - apply Qlt_le_weak. exact HE.
Qed.

Lemma poly_lt_mono (g1 g2 : Q) : -100 <= g1 -> g1 < g2 -> V g1 < V g2.
Proof.
  intros H1 H12. unfold poly_value.
  apply Qmult_lt_l; [exact HP|].
  destruct (Z.to_nat n) as [|k] eqn:Ek; [lia|].
  apply value_multiple_lt_mono; try assumption.
  - apply ratio_nonneg; assumption.
  - apply ratio_lt_mono; assumption.
Qed.

Lemma poly_nonneg (g : Q) : -100 <= g -> 0 <= V g.
Proof.
  intro Hg. unfold poly_value.
  apply Qmult_le_0_compat; [apply Qlt_le_weak; exact HP|].
  apply value_multiple_nonneg;
    [apply ratio_nonneg; assumption | apply Qlt_le_weak; exact HE].
Qed.

Lemma poly_ratio (g1 g2 : Q) :
  -90 <= g1 -> g1 <= g2 -> g2 - g1 <= final_step ->
  V g2 <= ratio_bound * V g1.
Proof.
  intros H1 H12 Hstep.
  assert (Hd : 0 < 1 + rp / 100) by frac_lra.
  assert (Hq1 : 0 <= (1 + g1 / 100) / (1 + rp / 100))
    by (apply ratio_nonneg; [assumption | lra]).
  assert (Hscale :
    value_multiple ((1 + g2 / 100) / (1 + rp / 100)) PE (Z.to_nat n)
    <= growth_factor ^ Z.of_nat (Z.to_nat n)
       * value_multiple ((1 + g1 / 100) / (1 + rp / 100)) PE (Z.to_nat n)).
  { apply value_multiple_scale.
    - exact Hq1.
    - apply div_le_compat; frac_lra.
    - apply div_scale_compat; [exact Hd|].
      unfold growth_factor, final_step in *. frac_lra.
    - exact growth_factor_ge_1.
    - apply Qlt_le_weak. exact HE. }
  assert (Hpow : growth_factor ^ Z.of_nat (Z.to_nat n) <= ratio_bound).
  { unfold ratio_bound.
    apply Qpower_le_compat_l; [lia | exact growth_factor_ge_1]. }
  pose proof (value_multiple_nonneg _ PE (Z.to_nat n) Hq1
                (Qlt_le_weak _ _ HE)) as Hnn.
  unfold poly_value.
  set (W1 := value_multiple ((1 + g1 / 100) / (1 + rp / 100)) PE
               (Z.to_nat n)) in *.
  set (W2 := value_multiple ((1 + g2 / 100) / (1 + rp / 100)) PE
               (Z.to_nat n)) in *.
  apply Qle_trans with (PAT * (growth_factor ^ Z.of_nat (Z.to_nat n) * W1)).
  - apply Qmult_le_l; assumption.
  - setoid_replace (ratio_bound * (PAT * W1))
      with (PAT * (ratio_bound * W1)) by ring.
    apply Qmult_le_l; [exact HP|].
    apply Qmult_le_compat_r; assumption.
Qed.

(** A growth rate within [final_step] of the exact solution is within the
    solver's tolerance. *)
Lemma near_root_within_tolerance (m : Q) :
  -90 <= m -> Qabs (m - gstar) <= final_step ->
  within_tolerance val T tol m = true.
Proof.
  intros Hm Hnear.
  apply Qabs_Qle_condition in Hnear. destruct Hnear as [Hn1 Hn2].
  destruct (val_poly m) as [v [E Hv]].
  unfold within_tolerance. rewrite E. cbn [sub neg add abs lt].
  apply Qltb_true. rewrite Hv.
  pose proof ratio_bound_small as Hsmall.
  pose proof poly_root as HTeq.
  apply Qabs_Qlt_condition.
  destruct (Qlt_le_dec m gstar) as [Hlt|Hge].
  - (* below the solution *)
    pose proof (poly_lt_mono m gstar ltac:(lra) Hlt) as Hmono.
    pose proof (poly_ratio m gstar Hm (Qlt_le_weak _ _ Hlt) ltac:(lra))
      as Hratio.
    pose proof (poly_nonneg m ltac:(lra)) as Hnn.
    assert (Hb : ratio_bound * V m <= (1 + 0.00001) * V m)
      by (apply Qmult_le_compat_r; [apply Qlt_le_weak; exact Hsmall
                                   | exact Hnn]).
    rewrite HTeq in *. split; lra.
  - (* at or above the solution *)
    pose proof (poly_le_mono gstar m ltac:(lra) Hge) as Hmono.
    pose proof (poly_ratio gstar m Hlo Hge ltac:(lra)) as Hratio.
    assert (Hb : ratio_bound * T < (1 + 0.00001) * T)
      by (apply Qmult_lt_compat_r; [exact HT | exact Hsmall]).
    rewrite HTeq in *. split; lra.
Qed.

(** Once the bracket around the exact solution is narrower than
    [2 * final_step * 2^j], the loop stops within [j + 1] iterations at a
    midpoint that meets the tolerance. *)
Lemma bisect_converges (j : nat) :
  forall (iters : nat) (low high : Q),
    (j < iters)%nat ->
    -90 <= low -> low <= gstar -> gstar <= high -> high <= 200 ->
    high - low <= final_step * 2 * 2 ^ Z.of_nat j ->
    exists m,
      In m (fst (bisect val T tol iters low high))
      /\ snd (bisect val T tol iters low high) = round2 m
      /\ within_tolerance val T tol m = true.
Proof.
  induction j as [|j IH]; intros iters low high Hj Hl1 Hl2 Hh1 Hh2 Hw;
    (destruct iters as [|i]; [lia|]); cbn [bisect];
    set (mid := (low + high) / 2);
    assert (Hmid : mid == (low + high) * (1 # 2)) by reflexivity;
    pose proof (near_root_within_tolerance mid) as Hnear;
    unfold within_tolerance in Hnear; cbv beta in Hnear;
    destruct (lt (abs (calculateImpliedEquityValue PAT mid rp n PE
                       - Num T)%js) (Num tol)) eqn:Hhit;
    try (exists mid; split; [left; reflexivity|];
         split; [reflexivity | exact Hhit]).
  - exfalso.
    change (2 ^ Z.of_nat 0) with 1 in Hw.
    assert (Htrue : true = false).
    { rewrite <- Hnear; [reflexivity | lra |].
      apply Qabs_Qle_condition. split; lra. }
    discriminate Htrue.
  - clear Hnear.
    rewrite Qpower_S in Hw. set (P := 2 ^ Z.of_nat j) in *.
    destruct (val_poly mid) as [v [E Hv]]. rewrite E. cbn [lt fst snd].
    pose proof poly_root as HTeq.
    assert (Hnext : forall low' high',
              (exists m,
                  In m (fst (bisect val T tol i low' high'))
                  /\ snd (bisect val T tol i low' high') = round2 m
                  /\ within_tolerance val T tol m = true) ->
              exists m,
                In m (mid :: fst (bisect val T tol i low' high'))
                /\ snd (bisect val T tol i low' high') = round2 m
                /\ within_tolerance val T tol m = true).
    { intros low' high' [m [Hin Hrest]]. exists m.
      split; [right; exact Hin | exact Hrest]. }
    destruct (Qltb v T) eqn:Hb; apply Hnext.
    + apply Qltb_true in Hb.
      assert (Hlt : mid < gstar).
      { destruct (Qlt_le_dec mid gstar) as [Hlt|Hge]; [exact Hlt|].
        pose proof (poly_le_mono gstar mid ltac:(lra) Hge). lra. }
      apply IH; try assumption; try lia; lra.
    + apply Qltb_false in Hb.
      assert (Hge : gstar <= mid).
      { destruct (Qlt_le_dec mid gstar) as [Hlt|Hge]; [|exact Hge].
        pose proof (poly_lt_mono mid gstar ltac:(lra) Hlt). lra. }
      apply IH; try assumption; try lia; lra.
Qed.

End Convergence.

(** ** C3: round trip through the solver *)




(** * Further properties of the engine *)

(** ** generateProjections *)

Lemma projections_loop_schedule (PAT g : Q) (k : nat) :
  forall (j : nat) (acc : list Projection),
    projections_loop PAT g k (Z.of_nat (S j)) acc
    = acc ++ map (projection_at PAT g) (seq (S j) k).
Proof.
  induction k as [|k IH]; intros j acc; cbn [projections_loop seq map].
  - symmetry. apply app_nil_r.
  - rewrite Math_pow_num by (left; lia). cbn [mul].
    replace (Z.of_nat (S j) + 1)%Z with (Z.of_nat (S (S j))) by lia.
    rewrite IH, <- app_assoc. reflexivity.
Qed.

Lemma generateProjections_map (PAT gp : Q) (n : Z) :
  generateProjections PAT gp n
  = map (projection_at PAT (gp / 100)) (seq 1 (Z.to_nat n)).
Proof.
  unfold generateProjections.
  exact (projections_loop_schedule PAT (gp / 100) (Z.to_nat n) 0 []).
Qed.

Lemma nth_error_map_seq {A : Type} (f : nat -> A) (k : nat) :
  forall a i,
    nth_error (map f (seq a k)) i
    = if (i <? k)%nat then Some (f (a + i)%nat) else None.
Proof.
  induction k as [|k IH]; intros a i; cbn [seq map].
  - destruct i; reflexivity.
  - destruct i as [|i]; cbn [nth_error].
    + rewrite Nat.add_0_r. reflexivity.
    + rewrite IH. replace (S a + i)%nat with (a + S i)%nat by lia.
      reflexivity.
Qed.

(** X1. generateProjections returns one entry per year 1, 2, ..., n in
    that order (none when n <= 0), and the entry of year t carries the
    profit PAT (1+g)^t. *)
Theorem projections_schedule (currentPAT growthRatePct : Q)
    (forecastPeriod : Z) :
  List.length (generateProjections currentPAT growthRatePct forecastPeriod)
  = Z.to_nat forecastPeriod
  /\ ((forecastPeriod <= 0)%Z ->
      generateProjections currentPAT growthRatePct forecastPeriod = [])
  /\ forall i : nat,
       (i < Z.to_nat forecastPeriod)%nat ->
       nth_error (generateProjections currentPAT growthRatePct forecastPeriod)
         i
       = Some {| year := Z.of_nat i + 1;
                 pat := Num (currentPAT
                             * (1 + growthRatePct / 100)
                               ^ (Z.of_nat i + 1)) |}.
Proof.
  rewrite generateProjections_map. split; [|split].
  - rewrite length_map, length_seq. reflexivity.
  - intro Hn. replace (Z.to_nat forecastPeriod) with 0%nat by lia.
    reflexivity.
  - intros i Hi. rewrite nth_error_map_seq.
    apply Nat.ltb_lt in Hi. rewrite Hi. unfold projection_at.
    replace (Z.of_nat (1 + i)) with (Z.of_nat i + 1)%Z by lia.
    reflexivity.
Qed.

Lemma projections_schedule_witness :
  nth_error (generateProjections 100 10 3) 2
  = Some {| year := 3; pat := Num (100 * (1 + 10 / 100) ^ 3) |}.
Proof.
  destruct (projections_schedule 100 10 3) as [_ [_ H]].
  apply (H 2%nat). simpl. lia.
Defined.



Lemma present_value_loop (PAT g r : Q) (k : nat) :
  present_value r (map (projection_at PAT g) (seq 1 k))
  = pvEarnings_loop PAT g r k 1%Z (Num 0).
Proof.
  change 1%Z with (Z.of_nat 1).
  rewrite (pvEarnings_loop_fold PAT g r k 1 (Num 0)).
  unfold present_value. generalize (Num 0). generalize (seq 1 k).
  intro l. induction l as [|a l IH]; intro acc; cbn [map fold_left];
    [reflexivity|].
  rewrite IH. f_equal. unfold projection_at. cbn [pat year].
  rewrite (Math_pow_num (1 + g) (Z.of_nat a)) by (left; lia).
  reflexivity.
Qed.

Lemma final_pat_schedule (PAT g : Q) (k : nat) :
  final_pat (map (projection_at PAT g) (seq 1 (S k)))
  = Num (PAT * (1 + g) ^ Z.of_nat (S k)).
Proof.
  unfold final_pat.
  replace (S k) with (k + 1)%nat at 1 by lia.
  rewrite seq_app, map_app. cbn [seq map]. rewrite last_last.
  replace (1 + k)%nat with (S k) by lia. reflexivity.
Qed.

(** X3. The implied equity value is the present value of the projected
    profits plus the discounted terminal value built on the last projected
    profit: for profit > 0, exit multiple > 0, horizon n >= 1 and a discount
    rate other than -100%, calculateImpliedEquityValue equals the sum over
    the entries of generateProjections of pat / (1+r)^year, plus
    (last pat * exitPE) / (1+r)^n, whichever branch of the code runs. *)
Theorem implied_value_discounts_projections
    (currentPAT growthRatePct discountRatePct : Q) (forecastPeriod : Z)
    (exitPE : Q) :
  0 < currentPAT -> 0 < exitPE -> (1 <= forecastPeriod)%Z ->
  ~ 1 + discountRatePct / 100 == 0 ->
  let schedule :=
    generateProjections currentPAT growthRatePct forecastPeriod in
  jeq (calculateImpliedEquityValue currentPAT growthRatePct discountRatePct
         forecastPeriod exitPE)
      (present_value (discountRatePct / 100) schedule
       + (final_pat schedule * Num exitPE)
         / Math_pow (1 + discountRatePct / 100) forecastPeriod)%js.
Proof.
  intros HP HE Hn Hr schedule.
  eapply jeq_trans;
    [apply implied_value_polynomial; assumption|].
  unfold schedule. rewrite generateProjections_map.
  set (g := growthRatePct / 100) in *.
  set (r := discountRatePct / 100) in *.
  rewrite present_value_loop.
  destruct (Z.to_nat forecastPeriod) as [|k] eqn:Ek; [lia|].
  assert (Hnk : forecastPeriod = Z.of_nat (S k)) by lia.
  rewrite final_pat_schedule, Hnk.
  destruct (pvEarnings_loop_regular currentPAT g r Hr (S k) 0 0)
    as [b [Hb Hq]].
  change (Z.of_nat 1) with 1%Z in Hb. rewrite Hb.
  rewrite Math_pow_num by (left; lia).
  cbn [mul]. rewrite div_num by (apply Qpower_not_0; exact Hr).
  cbn [add jeq]. rewrite Hq. cbn [Nat.add].
  rewrite sum_terms_geometric. unfold value_multiple.
  change (sum_1_to 0 (fun t : Z => currentPAT * (1 + g) ^ t / (1 + r) ^ t))
    with 0.
  rewrite Qdiv_power. field. apply Qpower_not_0. exact Hr.
Qed.

Lemma implied_value_discounts_projections_witness :
  jeq (calculateImpliedEquityValue 100 10 12 3 20)
      (present_value (12 / 100) (generateProjections 100 10 3)
       + (final_pat (generateProjections 100 10 3) * Num 20)
         / Math_pow (1 + 12 / 100) 3)%js.
Proof.
  apply (implied_value_discounts_projections 100 10 12 3 20);
    first [reflexivity | lia | discriminate].
Defined.

(** ** Range of the solver's answer *)

Lemma bisect_result_in_bracket (val : Q -> jsnum) (target tolerance : Q)
    (iters : nat) :
  forall low high : Q,
    low <= high ->
    exists m,
      snd (bisect val target tolerance iters low high) = round2 m
      /\ low <= m /\ m <= high.
Proof.
  induction iters as [|i IH]; intros low high Hlh; cbn [bisect].
  - exists ((low + high) / 2). split; [reflexivity|]. split; frac_lra.
  - destruct (lt (abs (val ((low + high) / 2)%Q - Num target)%js)
                (Num tolerance)).
    + exists ((low + high) / 2). split; [reflexivity|]. split; frac_lra.
    + cbn [snd].
      destruct (lt (val ((low + high) / 2)) (Num target)).
      * destruct (IH ((low + high) / 2) high ltac:(frac_lra))
          as [m [Hm [H1 H2]]].
        exists m. split; [exact Hm|]. split; frac_lra.
      * destruct (IH low ((low + high) / 2) ltac:(frac_lra))
          as [m [Hm [H1 H2]]].
        exists m. split; [exact Hm|]. split; frac_lra.
Qed.

Lemma round2_hundredths (m : Q) :
  -90 <= m -> m <= 200 ->
  exists z : Z,
    round2 m = inject_Z z / 100 /\ (-9000 <= z <= 20000)%Z.
Proof.
  intros Hlo Hhi. exists (Qfloor (m * 100 + (1 # 2))).
  split; [reflexivity|]. split.
  - change (-9000)%Z with (Qfloor (-9000 * 100 / 100 + (1 # 2))).
    apply Qfloor_resp_le. frac_lra.
  - change 20000%Z with (Qfloor (20000 * 100 / 100 + (1 # 2))).
    apply Qfloor_resp_le. frac_lra.
Qed.

(** X4. Whatever the inputs, a number returned by solveImpliedGrowthRate
    is a whole number of hundredths between -90 and 200: it is z / 100 for
    an integer z with -9000 <= z <= 20000. *)
Theorem solver_answer_range
    (currentPAT marketCap discountRatePct : Q) (forecastPeriod : Z)
    (exitPE v : Q) :
  solveImpliedGrowthRate currentPAT marketCap discountRatePct
    forecastPeriod exitPE = Some v ->
  (exists z : Z, v = inject_Z z / 100 /\ (-9000 <= z <= 20000)%Z)
  /\ -90 <= v /\ v <= 200.
Proof.
  unfold solveImpliedGrowthRate, solveImpliedGrowthRate_run.
  destruct (Qle_bool currentPAT 0 || Qle_bool marketCap 0
            || Qle_bool exitPE 0); [discriminate|].
  remember (bisect
              (fun mid => calculateImpliedEquityValue currentPAT mid
                            discountRatePct forecastPeriod exitPE)
              marketCap (marketCap * 0.00001) maxIterations (-90) 200)
    as out eqn:Hout.
  destruct (bisect_result_in_bracket
              (fun mid => calculateImpliedEquityValue currentPAT mid
                            discountRatePct forecastPeriod exitPE)
              marketCap (marketCap * 0.00001) maxIterations (-90) 200)
    as [m [Hm [H1 H2]]]; [discriminate|].
  rewrite <- Hout in Hm. clear Hout. destruct out as [calls res].
  cbn [fst snd] in *. intro H. inversion H; subst v. clear H. subst res.
  destruct (round2_hundredths m H1 H2) as [z [Hz Hb]].
  split; [exists z; split; assumption|].
  rewrite Hz.
  assert (Hq : inject_Z (-9000) <= inject_Z z /\ inject_Z z <= inject_Z 20000)
    by (split; rewrite <- Zle_Qle; lia).
  change (inject_Z (-9000)) with (-9000) in Hq.
  change (inject_Z 20000) with 20000 in Hq.
  set (f := inject_Z z) in *. split; frac_lra.
Qed.

Lemma solver_answer_range_witness :
  exists v,
    solveImpliedGrowthRate 100 (22001 # 100) 0 1 1 = Some v
    /\ -90 <= v /\ v <= 200.
Proof.
  eexists. split; [vm_compute; reflexivity|].
  refine (proj2 (solver_answer_range 100 (22001 # 100) 0 1 1 _ _)).
  vm_compute. reflexivity.
Defined.

(** ** Sensitivity of the valuation to its other arguments *)

Lemma value_multiple_pos (q PE : Q) (k : nat) :
  0 < q -> 0 < PE -> 0 < value_multiple q PE k.
Proof.
  intros Hq HE. unfold value_multiple.
  pose proof (geometric_sum_nonneg q k (Qlt_le_weak _ _ Hq)).
  pose proof (Qmult_lt_0_compat _ _ HE (Qpower_0_lt q (Z.of_nat k) Hq)).
  lra.
Qed.

(** X5. A higher discount rate gives a strictly lower implied value: for
    profit > 0, exit multiple > 0, horizon >= 1, growth above -100% and
    discount rates -100% < r1 < r2, the value at r2 is below the value at
    r1. *)
Theorem implied_value_decreasing_in_discount
    (currentPAT growthRatePct r1 r2 : Q) (forecastPeriod : Z) (exitPE : Q) :
  0 < currentPAT -> 0 < exitPE -> (1 <= forecastPeriod)%Z ->
  -100 < growthRatePct -> -100 < r1 -> r1 < r2 ->
  lt (calculateImpliedEquityValue currentPAT growthRatePct r2
        forecastPeriod exitPE)
     (calculateImpliedEquityValue currentPAT growthRatePct r1
        forecastPeriod exitPE) = true.
Proof.
  intros HP HE Hn Hg Hr1 Hr.
  assert (Hd1 : 0 < 1 + r1 / 100) by frac_lra.
  assert (Hd2 : 0 < 1 + r2 / 100) by frac_lra.
  assert (Hx : 0 < 1 + growthRatePct / 100) by frac_lra.
  destruct (jeq_num_inv _ _ (implied_value_polynomial currentPAT
              growthRatePct r1 forecastPeriod exitPE HP HE Hn
              ltac:(lra))) as [v1 [E1 Q1]].
  destruct (jeq_num_inv _ _ (implied_value_polynomial currentPAT
              growthRatePct r2 forecastPeriod exitPE HP HE Hn
              ltac:(lra))) as [v2 [E2 Q2]].
  rewrite E1, E2. cbn [lt]. apply Qltb_true. rewrite Q1, Q2.
  apply Qmult_lt_l; [exact HP|].
  destruct (Z.to_nat forecastPeriod) as [|k] eqn:Ek; [lia|].
  apply value_multiple_lt_mono; [| |exact HE].
  - apply Qlt_le_weak, Qlt_shift_div_l; [exact Hd2 | lra].
  - apply Qlt_shift_div_l; [exact Hd1|].
    setoid_replace ((1 + growthRatePct / 100) / (1 + r2 / 100)
                    * (1 + r1 / 100))
      with ((1 + growthRatePct / 100) * ((1 + r1 / 100) / (1 + r2 / 100)))
      by (field; lra).
    setoid_replace (1 + growthRatePct / 100)
      with ((1 + growthRatePct / 100) * 1) at 2 by ring.
    apply Qmult_lt_l; [exact Hx|].
    apply Qlt_shift_div_r; [exact Hd2 | frac_lra].
Qed.

Lemma implied_value_decreasing_in_discount_witness :
  lt (calculateImpliedEquityValue 1737 13 15 10 45)
     (calculateImpliedEquityValue 1737 13 12 10 45) = true.
Proof.
  apply (implied_value_decreasing_in_discount 1737 13 12 15 10 45);
    first [reflexivity | lia].
Defined.

(** X6. A higher exit multiple gives a strictly higher implied value: for
    profit > 0, horizon >= 1, growth and discount rate above -100% and exit
    multiples 0 < m1 < m2, the value at m1 is below the value at m2. *)
Theorem implied_value_increasing_in_multiple
    (currentPAT growthRatePct discountRatePct : Q) (forecastPeriod : Z)
    (m1 m2 : Q) :
  0 < currentPAT -> (1 <= forecastPeriod)%Z ->
  -100 < growthRatePct -> -100 < discountRatePct ->
  0 < m1 -> m1 < m2 ->
  lt (calculateImpliedEquityValue currentPAT growthRatePct discountRatePct
        forecastPeriod m1)
     (calculateImpliedEquityValue currentPAT growthRatePct discountRatePct
        forecastPeriod m2) = true.
Proof.
  intros HP Hn Hg Hr Hm1 Hm.
  assert (Hd : 0 < 1 + discountRatePct / 100) by frac_lra.
  assert (Hx : 0 < 1 + growthRatePct / 100) by frac_lra.
  assert (Hm2 : 0 < m2) by lra.
  destruct (jeq_num_inv _ _ (implied_value_polynomial currentPAT
              growthRatePct discountRatePct forecastPeriod m1 HP Hm1 Hn
              ltac:(lra))) as [v1 [E1 Q1]].
  destruct (jeq_num_inv _ _ (implied_value_polynomial currentPAT
              growthRatePct discountRatePct forecastPeriod m2 HP Hm2 Hn
              ltac:(lra))) as [v2 [E2 Q2]].
  rewrite E1, E2. cbn [lt]. apply Qltb_true. rewrite Q1, Q2.
  apply Qmult_lt_l; [exact HP|]. unfold value_multiple.
  assert (Hq : 0 < (1 + growthRatePct / 100) / (1 + discountRatePct / 100))
    by (apply Qlt_shift_div_l; [exact Hd | lra]).
  pose proof (Qpower_0_lt _ (Z.of_nat (Z.to_nat forecastPeriod)) Hq) as Hp.
  apply (Qmult_lt_compat_r _ _ _ Hp) in Hm. lra.
Qed.

Lemma implied_value_increasing_in_multiple_witness :
  lt (calculateImpliedEquityValue 1737 13 15 10 40)
     (calculateImpliedEquityValue 1737 13 15 10 45) = true.
Proof.
  apply (implied_value_increasing_in_multiple 1737 13 15 10 40 45);
    first [reflexivity | lia].
Defined.

(** ** When the valuation is a finite number *)

Lemma add_not_finite_r (a b : jsnum) :
  (forall v, b <> Num v) -> forall v, (a + b)%js <> Num v.
Proof.
  intros Hb v. destruct a, b; cbn [add]; try discriminate.
  exfalso. exact (Hb _ eq_refl).
Qed.

Lemma scale_inf_not_finite (s : bool) (x v : Q) : scale_inf s x <> Num v.
Proof.
  unfold scale_inf. destruct (x ?= 0), s; discriminate.
Qed.



(** ** A target outside the reach of the bracket *)

Lemma bisect_always_raise (val : Q -> jsnum) (target tolerance : Q)
    (high : Q) (iters : nat) :
  forall low : Q,
    low < high ->
    (forall m, low <= m -> m < high ->
       within_tolerance val target tolerance m = false
       /\ lt (val m) (Num target) = true) ->
    bisect val target tolerance iters low high
    = (map (fun j => (raise_low j low high + high) / 2) (seq 0 iters),
       round2 ((raise_low iters low high + high) / 2)).
Proof.
  induction iters as [|i IH]; intros low Hlh Hall; [reflexivity|].
  cbn [bisect].
  destruct (Hall ((low + high) / 2) ltac:(frac_lra) ltac:(frac_lra))
    as [Hhit Hbelow].
  unfold within_tolerance in Hhit. rewrite Hhit, Hbelow.
  rewrite IH.
  - cbn [fst snd raise_low seq map]. f_equal. f_equal.
    rewrite <- seq_shift, map_map. reflexivity.
  - frac_lra.
  - intros m H1 H2. apply Hall; [frac_lra | exact H2].
Qed.

Lemma bisect_always_lower (val : Q -> jsnum) (target tolerance : Q)
    (low : Q) (iters : nat) :
  forall high : Q,
    low < high ->
    (forall m, low < m -> m <= high ->
       within_tolerance val target tolerance m = false
       /\ lt (val m) (Num target) = false) ->
    bisect val target tolerance iters low high
    = (map (fun j => (low + lower_high j low high) / 2) (seq 0 iters),
       round2 ((low + lower_high iters low high) / 2)).
Proof.
  induction iters as [|i IH]; intros high Hlh Hall; [reflexivity|].
  cbn [bisect].
  destruct (Hall ((low + high) / 2) ltac:(frac_lra) ltac:(frac_lra))
    as [Hhit Hbelow].
  unfold within_tolerance in Hhit. rewrite Hhit, Hbelow.
  rewrite IH.
  - cbn [fst snd lower_high seq map]. f_equal. f_equal.
    rewrite <- seq_shift, map_map. reflexivity.
  - frac_lra.
  - intros m H1 H2. apply Hall; [exact H1 | frac_lra].
Qed.

Lemma bracket_top_rounds_to_200 :
  round2 ((raise_low maxIterations (-90) 200 + 200) / 2) == 200.
Proof. vm_compute. reflexivity. Qed.

Lemma bracket_bottom_rounds_to_minus_90 :
  round2 ((-90 + lower_high maxIterations (-90) 200) / 2) == -90.
Proof. vm_compute. reflexivity. Qed.

(** X10. A target too high for the bracket is not reported: for
    profit > 0, target > 0, exit multiple > 0, horizon >= 1 and a discount
    rate above -100%, if the valuation at the top of the bracket (growth
    200%) is at least the tolerance target * 1e-5 below the target, no
    iteration meets the tolerance, all 500 iterations run, and the solver
    returns 200. *)
Theorem solver_saturates_at_200
    (currentPAT marketCap discountRatePct : Q) (forecastPeriod : Z)
    (exitPE v : Q) :
  0 < currentPAT -> 0 < marketCap -> 0 < exitPE ->
  (1 <= forecastPeriod)%Z -> -100 < discountRatePct ->
  jeq (calculateImpliedEquityValue currentPAT 200 discountRatePct
         forecastPeriod exitPE) (Num v) ->
  v <= marketCap - marketCap * 0.00001 ->
  (exists out,
      solveImpliedGrowthRate currentPAT marketCap discountRatePct
        forecastPeriod exitPE = Some out
      /\ out == 200)
  /\ List.length (valuation_calls currentPAT marketCap discountRatePct
                    forecastPeriod exitPE) = 500%nat.
Proof.
  intros HP HT HE Hn Hr Hv Hgap.
  unfold solveImpliedGrowthRate, valuation_calls.
  rewrite (solver_run_unfold _ _ _ _ _ HP HT HE _ eq_refl).
  rewrite bisect_always_raise.
  - cbn [fst snd]. split.
    + eexists. split; [reflexivity | exact bracket_top_rounds_to_200].
    + rewrite length_map, length_seq. reflexivity.
  - reflexivity.
  - intros m H1 H2.
    destruct (implied_value_lt_mono currentPAT m 200 discountRatePct
                forecastPeriod exitPE HP HE Hn Hr ltac:(lra) H2)
      as [v1 [v2 [E1 [E2 Hlt]]]].
    rewrite E2 in Hv. cbn [jeq] in Hv.
    unfold within_tolerance. rewrite E1. cbn [sub neg add abs lt].
    split.
    + apply Qltb_false.
      rewrite Qabs_neg by lra. lra.
    + apply Qltb_true. lra.
Qed.

Lemma solver_saturates_at_200_witness :
  exists out,
    solveImpliedGrowthRate 100 1000000000 10 5 20 = Some out /\ out == 200.
Proof.
  refine (proj1 (solver_saturates_at_200 100 1000000000 10 5 20
                   (52411413000 # 161051) _ _ _ _ _ _ _));
    first [reflexivity | lia | discriminate].
Defined.

(** X11. A target too low for the bracket is not reported either: under
    the same conditions, if the valuation at the bottom of the bracket
    (growth -90%) is at least the tolerance above the target, all 500
    iterations run and the solver returns -90. *)
Theorem solver_saturates_at_minus_90
    (currentPAT marketCap discountRatePct : Q) (forecastPeriod : Z)
    (exitPE v : Q) :
  0 < currentPAT -> 0 < marketCap -> 0 < exitPE ->
  (1 <= forecastPeriod)%Z -> -100 < discountRatePct ->
  jeq (calculateImpliedEquityValue currentPAT (-90) discountRatePct
         forecastPeriod exitPE) (Num v) ->
  marketCap + marketCap * 0.00001 <= v ->
  (exists out,
      solveImpliedGrowthRate currentPAT marketCap discountRatePct
        forecastPeriod exitPE = Some out
      /\ out == -90)
  /\ List.length (valuation_calls currentPAT marketCap discountRatePct
                    forecastPeriod exitPE) = 500%nat.
Proof.
  intros HP HT HE Hn Hr Hv Hgap.
  unfold solveImpliedGrowthRate, valuation_calls.
  rewrite (solver_run_unfold _ _ _ _ _ HP HT HE _ eq_refl).
  rewrite bisect_always_lower.
  - cbn [fst snd]. split.
    + eexists. split;
        [reflexivity | exact bracket_bottom_rounds_to_minus_90].
    + rewrite length_map, length_seq. reflexivity.
  - reflexivity.
  - intros m H1 H2.
    destruct (implied_value_lt_mono currentPAT (-90) m discountRatePct
                forecastPeriod exitPE HP HE Hn Hr ltac:(lra) H1)
      as [v1 [v2 [E1 [E2 Hlt]]]].
    rewrite E1 in Hv. cbn [jeq] in Hv.
    unfold within_tolerance. rewrite E2. cbn [sub neg add abs lt].
    split.
    + apply Qltb_false.
      rewrite Qabs_pos by lra. lra.
    + apply Qltb_false. lra.
Qed.

Lemma solver_saturates_at_minus_90_witness :
  exists out,
    solveImpliedGrowthRate 100 5 10 5 20 = Some out /\ out == -90.
Proof.
  refine (proj1 (solver_saturates_at_minus_90 100 5 10 5 20
                   (1612500 # 161051) _ _ _ _ _ _ _));
    first [reflexivity | lia | discriminate].
Defined.

(** ** Independence of the unit of account *)

Lemma jeq_refl (a : jsnum) : jeq a a.
Proof. destruct a; cbn [jeq]; auto. reflexivity. Qed.

Lemma jeq_sym (a b : jsnum) : jeq a b -> jeq b a.
Proof. destruct a, b; cbn [jeq]; try tauto. intro H. now symmetry. Qed.

#[local] Instance jeq_equivalence : Equivalence jeq.
Proof.
  split; [exact jeq_refl | exact jeq_sym | exact jeq_trans].
Qed.

#[local] Instance Qltb_comp : Proper (Qeq ==> Qeq ==> eq) Qltb.
Proof. intros x x' Hx y y' Hy. unfold Qltb. now rewrite Hx, Hy. Qed.

#[local] Instance scale_inf_comp : Proper (eq ==> Qeq ==> eq) scale_inf.
Proof. intros s s' <- x x' Hx. unfold scale_inf. now rewrite Hx. Qed.

#[local] Instance add_comp : Proper (jeq ==> jeq ==> jeq) add.
Proof.
  intros a a' Ha b b' Hb.
  destruct a, a', b, b'; cbn [jeq add] in *; try tauto.
  now rewrite Ha, Hb.
Qed.

#[local] Instance mul_comp : Proper (jeq ==> jeq ==> jeq) mul.
Proof.
  intros a a' Ha b b' Hb.
  destruct a, a', b, b'; cbn [jeq mul] in *; try tauto;
    try (rewrite Ha; apply jeq_refl); try (rewrite Hb; apply jeq_refl).
  now rewrite Ha, Hb.
Qed.

#[local] Instance div_comp : Proper (jeq ==> jeq ==> jeq) div.
Proof.
  intros a a' Ha b b' Hb.
  destruct a, a', b, b'; cbn [jeq div] in *; try tauto;
    try reflexivity;
    try (rewrite Hb; apply jeq_refl).
  rewrite Hb. destruct (Qeq_bool q2 0).
  - rewrite Ha. apply jeq_refl.
  - cbn [jeq]. now rewrite Ha, Hb.
Qed.

Lemma Qcompare_scale (k x : Q) : 0 < k -> (k * x ?= 0) = (x ?= 0).
Proof.
  intro Hk. destruct (Qcompare_spec x 0) as [H|H|H].
  - apply Qeq_alt. rewrite H. ring.
  - apply Qlt_alt.
    setoid_replace 0 with (k * 0) by ring. apply Qmult_lt_l; assumption.
  - apply Qgt_alt.
    setoid_replace 0 with (k * 0) by ring. apply Qmult_lt_l; assumption.
Qed.

Lemma scale_inf_scale (s : bool) (k x : Q) :
  0 < k -> scale_inf s (k * x) = scale_inf s x.
Proof. intro Hk. unfold scale_inf. now rewrite Qcompare_scale. Qed.

Lemma scale_inf_pos (s : bool) (k : Q) :
  0 < k -> scale_inf s k = if s then PInf else NInf.
Proof.
  intro Hk. unfold scale_inf. apply Qgt_alt in Hk. now rewrite Hk.
Qed.

Lemma Qeq_bool_scale (k x : Q) : 0 < k -> Qeq_bool (k * x) 0 = Qeq_bool x 0.
Proof.
  intro Hk. destruct (Qeq_bool x 0) eqn:E.
  - apply Qeq_bool_iff in E. apply Qeq_bool_iff. rewrite E. ring.
  - apply Qeq_bool_false in E. apply Qeq_bool_false. intro H. apply E.
    apply (Qmult_inj_l x 0 k); [lra | rewrite H; ring].
Qed.

Lemma Qltb_scale (k x y : Q) : 0 < k -> Qltb (k * x) (k * y) = Qltb x y.
Proof.
  intro Hk. destruct (Qltb x y) eqn:E.
  - apply Qltb_true in E. apply Qltb_true. apply Qmult_lt_l; assumption.
  - apply Qltb_false in E. apply Qltb_false. apply Qmult_le_l; assumption.
Qed.

Section Scaling.

Variable k : Q.
Hypothesis Hk : 0 < k.

Lemma scale_finite (a : jsnum) :
  (Num k * a)%js
  = match a with
    | Num x => Num (k * x)
    | other => other
    end.
Proof.
  destruct a; cbn [mul]; try reflexivity; now rewrite scale_inf_pos.
Qed.

Lemma scale_num_mul (p : Q) (a : jsnum) :
  jeq (Num (k * p) * a)%js (Num k * (Num p * a))%js.
Proof.
  rewrite scale_finite.
  destruct a; cbn [mul].
  - cbn [jeq]. ring.
  - rewrite scale_inf_scale by exact Hk.
    destruct (scale_inf true p) eqn:E; try apply jeq_refl.
    exfalso. exact (scale_inf_not_finite _ _ _ E).
  - rewrite scale_inf_scale by exact Hk.
    destruct (scale_inf false p) eqn:E; try apply jeq_refl.
    exfalso. exact (scale_inf_not_finite _ _ _ E).
  - reflexivity.
Qed.

Lemma scale_mul_assoc (a b : jsnum) :
  jeq ((Num k * a) * b)%js (Num k * (a * b))%js.
Proof.
  rewrite !scale_finite.
  destruct a as [x| | |], b as [y| | |]; cbn [mul];
    try apply jeq_refl;
    rewrite ?scale_inf_scale by exact Hk;
    try match goal with
        | |- context [scale_inf ?s ?x] =>
            destruct (scale_inf s x) eqn:E;
            [exfalso; exact (scale_inf_not_finite _ _ _ E)
            | apply jeq_refl ..]
        end.
  cbn [jeq]. ring.
Qed.

Lemma scale_div (a b : jsnum) :
  jeq ((Num k * a) / b)%js (Num k * (a / b))%js.
Proof.
  rewrite !scale_finite.
  destruct a as [x| | |].
  - destruct b as [y| | |]; cbn [div].
    + destruct (Qeq_bool y 0).
      * rewrite scale_inf_scale by exact Hk.
        destruct (scale_inf true x) eqn:E; try apply jeq_refl.
        exfalso. exact (scale_inf_not_finite _ _ _ E).
      * cbn [jeq]. unfold Qdiv. ring.
    + cbn [jeq]. ring.
    + cbn [jeq]. ring.
    + reflexivity.
  - destruct b as [y| | |]; cbn [div]; try reflexivity.
    destruct (Qltb y 0); reflexivity.
  - destruct b as [y| | |]; cbn [div]; try reflexivity.
    destruct (Qltb y 0); reflexivity.
  - destruct b; reflexivity.
Qed.

Lemma scale_add (a b : jsnum) :
  jeq (Num k * a + Num k * b)%js (Num k * (a + b))%js.
Proof.
  rewrite !scale_finite.
  destruct a, b; cbn [add]; try reflexivity.
  cbn [jeq]. ring.
Qed.

Lemma pvEarnings_loop_scale (PAT g r : Q) (n : nat) :
  forall (t : Z) (acc acc' : jsnum),
    jeq acc' (Num k * acc)%js ->
    jeq (pvEarnings_loop (k * PAT) g r n t acc')
        (Num k * pvEarnings_loop PAT g r n t acc)%js.
Proof.
  induction n as [|n IH]; intros t acc acc' Hacc; cbn [pvEarnings_loop];
    [exact Hacc|].
  apply IH.
  rewrite Hacc, scale_num_mul, scale_div, scale_add. reflexivity.
Qed.

Lemma valuation_scale
    (currentPAT growthRatePct discountRatePct : Q) (forecastPeriod : Z)
    (exitPE : Q) :
  jeq (calculateImpliedEquityValue (k * currentPAT) growthRatePct
         discountRatePct forecastPeriod exitPE)
      (Num k * calculateImpliedEquityValue currentPAT growthRatePct
                 discountRatePct forecastPeriod exitPE)%js.
Proof.
  unfold calculateImpliedEquityValue.
  replace (Qle_bool (k * currentPAT) 0) with (Qle_bool currentPAT 0).
  2:{ destruct (Qle_bool currentPAT 0) eqn:E; symmetry.
      - apply Qle_bool_iff in E. apply Qle_bool_iff.
        setoid_replace 0 with (k * 0) by ring.
        apply Qmult_le_l; assumption.
      - apply Qle_bool_false in E. apply Qle_bool_false.
        setoid_replace 0 with (k * 0) by ring.
        apply Qmult_lt_l; assumption. }
  destruct (Qle_bool currentPAT 0 || Qle_bool exitPE 0
            || (forecastPeriod <=? 0)%Z).
  - cbn [mul jeq]. ring.
  - cbv zeta. rewrite <- scale_add.
    apply add_comp.
    + destruct (Qltb (Qabs (discountRatePct / 100 - growthRatePct / 100))
                  0.0001).
      * apply pvEarnings_loop_scale. cbn [mul jeq]. ring.
      * rewrite (scale_num_mul currentPAT (Num (1 + growthRatePct / 100))).
        apply scale_mul_assoc.
    + rewrite scale_num_mul, scale_mul_assoc, scale_div. reflexivity.
Qed.

End Scaling.

(** X8. The valuation is proportional to the profit: multiplying
    currentPAT by k > 0 multiplies the implied equity value by k, for every
    growth rate, discount rate, horizon and exit multiple (non-finite
    results included). *)
Theorem implied_value_scales_with_profit
    (k currentPAT growthRatePct discountRatePct : Q) (forecastPeriod : Z)
    (exitPE : Q) :
  0 < k ->
  jeq (calculateImpliedEquityValue (k * currentPAT) growthRatePct
         discountRatePct forecastPeriod exitPE)
      (Num k * calculateImpliedEquityValue currentPAT growthRatePct
                 discountRatePct forecastPeriod exitPE)%js.
Proof.
  intro Hk. apply valuation_scale. exact Hk.
Qed.

Lemma implied_value_scales_with_profit_witness :
  jeq (calculateImpliedEquityValue (100 * 1737) 13 15 10 45)
      (Num 100 * calculateImpliedEquityValue 1737 13 15 10 45)%js.
Proof.
  apply (implied_value_scales_with_profit 100 1737 13 15 10 45). reflexivity.
Defined.

Lemma Qle_bool_scale (k x : Q) :
  0 < k -> Qle_bool (k * x) 0 = Qle_bool x 0.
Proof.
  intro Hk. destruct (Qle_bool x 0) eqn:E.
  - apply Qle_bool_iff in E. apply Qle_bool_iff.
    setoid_replace 0 with (k * 0) by ring. apply Qmult_le_l; assumption.
  - apply Qle_bool_false in E. apply Qle_bool_false.
    setoid_replace 0 with (k * 0) by ring. apply Qmult_lt_l; assumption.
Qed.

(** The two comparisons of the bisection are unchanged when the value,
    the target and the tolerance are all multiplied by [k > 0]. *)
Lemma comparisons_scale (k T c : Q) (v v' : jsnum) :
  0 < k -> jeq v' (Num k * v)%js ->
  lt (abs (v' - Num (k * T))%js) (Num (k * T * c))
  = lt (abs (v - Num T)%js) (Num (T * c))
  /\ lt v' (Num (k * T)) = lt v (Num T).
Proof.
  intros Hk Hv. rewrite (scale_finite k Hk) in Hv.
  destruct v as [x| | |], v' as [x'| | |]; cbn [jeq] in Hv; try tauto;
    cbn [sub neg add abs lt]; try (split; reflexivity).
  rewrite Hv. split.
  - setoid_replace (k * x + - (k * T)) with (k * (x + - T)) by ring.
    rewrite Qabs_Qmult, (Qabs_pos k) by lra.
    setoid_replace (k * T * c) with (k * (T * c)) by ring.
    apply Qltb_scale. exact Hk.
  - apply Qltb_scale. exact Hk.
Qed.

Lemma bisect_scale (k T c : Q) (val val' : Q -> jsnum) :
  0 < k ->
  (forall g, jeq (val' g) (Num k * val g)%js) ->
  forall (iters : nat) (low high : Q),
    bisect val' (k * T) (k * T * c) iters low high
    = bisect val T (T * c) iters low high.
Proof.
  intros Hk Hval iters.
  induction iters as [|i IH]; intros low high; cbn [bisect];
    [reflexivity|].
  destruct (comparisons_scale k T c (val ((low + high) / 2))
              (val' ((low + high) / 2)) Hk (Hval _)) as [Hhit Hbelow].
  rewrite Hhit, Hbelow, !IH. reflexivity.
Qed.

(** X9. The solver does not depend on the unit of account: multiplying
    both the profit and the market cap by the same k > 0 leaves the implied
    growth rate, and the growth rates at which the valuation is evaluated,
    unchanged. *)
Theorem solver_unit_invariant
    (k currentPAT marketCap discountRatePct : Q) (forecastPeriod : Z)
    (exitPE : Q) :
  0 < k ->
  solveImpliedGrowthRate (k * currentPAT) (k * marketCap) discountRatePct
    forecastPeriod exitPE
  = solveImpliedGrowthRate currentPAT marketCap discountRatePct
      forecastPeriod exitPE
  /\ valuation_calls (k * currentPAT) (k * marketCap) discountRatePct
       forecastPeriod exitPE
     = valuation_calls currentPAT marketCap discountRatePct
         forecastPeriod exitPE.
Proof.
  intro Hk.
  unfold solveImpliedGrowthRate, valuation_calls, solveImpliedGrowthRate_run.
  rewrite !Qle_bool_scale by exact Hk.
  rewrite (bisect_scale k marketCap 0.00001
             (fun mid => calculateImpliedEquityValue currentPAT mid
                           discountRatePct forecastPeriod exitPE)
             (fun mid => calculateImpliedEquityValue (k * currentPAT) mid
                           discountRatePct forecastPeriod exitPE) Hk).
  - split; reflexivity.
  - intro g. apply valuation_scale. exact Hk.
Qed.

Lemma solver_unit_invariant_witness :
  solveImpliedGrowthRate (100 * 1737) (100 * 93800) 15 10 45
  = solveImpliedGrowthRate 1737 93800 15 10 45.
Proof.
  apply (solver_unit_invariant 100 1737 93800 15 10 45). reflexivity.
Defined.

(** ** Sector keys that can never be selected *)

Lemma string_app_assoc (a b c : string) :
  ((a ++ b) ++ c = a ++ (b ++ c))%string.
Proof.
  induction a as [|x a IH]; cbn; [reflexivity | now rewrite IH].
Qed.

Lemma contains_trans (s key inner : string) :
  contains s key -> contains key inner -> contains s inner.
Proof.
  intros [a [b Hs]] [c [d Hk]]. subst s key.
  exists (a ++ c)%string, (d ++ b)%string.
  now rewrite !string_app_assoc.
Qed.

Lemma sector_scan_cons (s : string) (key : string) (val : Q)
    (rest : list (string * Q)) (d : Q) :
  sector_scan s ((key, val) :: rest) d
  = if includes s key then val else sector_scan s rest d.
Proof. reflexivity. Qed.

Lemma exit_multiple_with_it (m : Q) (label : string) :
  contains (toLowerCase label) "it" ->
  exitPE (getDefaultAssumptions m (Some label))
  = if includes (toLowerCase label) "fmcg" then 45 else 22.
Proof.
  intro H. apply includes_contains in H. rewrite exitPE_default.
  destruct label as [|c label]; [discriminate H|].
  unfold SECTOR_PE. rewrite !sector_scan_cons, H. reflexivity.
Qed.

(** X12. The sector scan stops at the first key contained in the
    lower-cased label, and "it" is the second key: every label containing
    the letters "it" gets multiple 22 (45 if it also contains "fmcg").  So
    the later entries "capital goods" (25), "utility" (10) and
    "hospitality" (25), whose keys contain "it", never supply the
    multiple. *)
Theorem sector_keys_shadowed_by_it :
  (forall (marketCap : Q) (label : string),
      contains (toLowerCase label) "it" ->
      exitPE (getDefaultAssumptions marketCap (Some label))
      = if includes (toLowerCase label) "fmcg" then 45 else 22)
  /\ filter (fun entry => includes (fst entry) "it") SECTOR_PE
     = [ ("it"%string, 22); ("capital goods"%string, 25);
         ("utility"%string, 10); ("hospitality"%string, 25) ]
  /\ (forall (marketCap : Q) (label key : string) (multiple : Q),
        In (key, multiple)
           [ ("capital goods"%string, 25); ("utility"%string, 10);
             ("hospitality"%string, 25) ] ->
        contains (toLowerCase label) key ->
        In (key, multiple) SECTOR_PE
        /\ ~ exitPE (getDefaultAssumptions marketCap (Some label))
             == multiple).
Proof.
  split; [exact exit_multiple_with_it|]. split; [reflexivity|].
  intros m label key multiple Hin Hc.
  assert (Hit : contains key "it").
  { apply includes_contains.
    cbn [In] in Hin.
    destruct Hin as [E|[E|[E|[]]]]; inversion E; reflexivity. }
  split.
  - cbn [In] in Hin. unfold SECTOR_PE.
    destruct Hin as [E|[E|[E|[]]]]; rewrite <- E; cbn [In]; tauto.
  - rewrite (exit_multiple_with_it m label (contains_trans _ _ _ Hc Hit)).
    cbn [In] in Hin.
    destruct (includes (toLowerCase label) "fmcg");
      destruct Hin as [E|[E|[E|[]]]]; inversion E; discriminate.
Qed.

(** ** analyzeStock *)

Lemma solver_none (PAT mcap r : Q) (n : Z) (PE : Q) :
  PAT <= 0 \/ mcap <= 0 ->
  solveImpliedGrowthRate PAT mcap r n PE = None.
Proof.
  intro H. unfold solveImpliedGrowthRate, solveImpliedGrowthRate_run.
  replace (Qle_bool PAT 0 || Qle_bool mcap 0 || Qle_bool PE 0) with true;
    [reflexivity|].
  symmetry. apply guard3_true. tauto.
Qed.

Lemma or_else_Q_drop (x : option Q) (d : Q) :
  or_else_Q (drop_zero_Q x) d = or_else_Q x d.
Proof.
  destruct x as [v|]; [|reflexivity]. cbn [drop_zero_Q or_else_Q].
  destruct (Qeq_bool v 0) eqn:E; cbn [or_else_Q]; [reflexivity|].
  now rewrite E.
Qed.

Lemma or_else_Z_drop (x : option Z) (d : Z) :
  or_else_Z (drop_zero_Z x) d = or_else_Z x d.
Proof.
  destruct x as [v|]; [|reflexivity]. cbn [drop_zero_Z or_else_Z].
  destruct (v =? 0)%Z eqn:E; cbn [or_else_Z]; [reflexivity|].
  now rewrite E.
Qed.

Lemma default_expectation_signal (m : Q) (sector : option string) :
  getSignal
    (Some (Num (expectedPatCagr (getDefaultAssumptions m sector) - 0)))
  = "Strong Buy"%string.
Proof.
  unfold getDefaultAssumptions.
  destruct (Qltb m 500), (Qltb m 5000), (Qltb m 20000), (Qltb m 50000),
    (Qltb m 200000); reflexivity.
Qed.

Lemma flat_projections (PAT : Q) (n : Z) (p : Projection) :
  In p (generateProjections PAT 0 n) -> jeq (pat p) (Num PAT).
Proof.
  rewrite generateProjections_map. intro H.
  apply in_map_iff in H. destruct H as [i [<- _]].
  unfold projection_at. cbn [pat jeq].
  setoid_replace (1 + 0 / 100) with 1 by reflexivity.
  rewrite Qpower_1. ring.
Qed.

(** X13. When the profit or the market cap is not positive, analyzeStock
    has no implied growth rate (null) and carries on with 0 in its place:
    the expectation gap is the expected growth itself and every projected
    profit equals the current profit.  If the expected growth is not
    customised (absent or 0), the signal is then "Strong Buy" for every
    market cap and sector. *)
Theorem analyze_without_implied_growth
    (stockData : Stock.t) (customAssumptions : Custom.t) :
  let a := analyzeStock stockData customAssumptions in
  Stock.currentPAT stockData <= 0 \/ Analysis.marketCapCr a <= 0 ->
  Results.impliedGrowthRate (Analysis.results a) = None
  /\ Results.expectationGap (Analysis.results a)
     = Assumptions.expectedPatCagr (Analysis.assumptions a) - 0
  /\ (forall p, In p (Analysis.projections a) ->
        jeq (pat p) (Num (Stock.currentPAT stockData)))
  /\ (drop_zero_Q (Custom.expectedPatCagr customAssumptions) = None ->
      Results.signal (Analysis.results a) = "Strong Buy"%string).
Proof.
  intros a H. unfold a in *. clear a. unfold analyzeStock in *.
  cbv zeta in *.
  cbn [Analysis.results Analysis.assumptions Analysis.projections
       Analysis.marketCapCr Results.impliedGrowthRate
       Results.expectationGap Results.signal Assumptions.expectedPatCagr
       Assumptions.discountRate Assumptions.forecastYears
       Assumptions.exitPE] in *.
  rewrite !(solver_none _ _ _ _ _ H). cbn [or_else_Q].
  split; [reflexivity|]. split; [reflexivity|]. split.
  - intro p. apply flat_projections.
  - intro Hc. rewrite <- or_else_Q_drop, Hc. cbn [or_else_Q].
    apply default_expectation_signal.
Qed.

Lemma analyze_without_implied_growth_witness :
  Results.signal
    (Analysis.results
       (analyzeStock
          {| Stock.symbol := "LOSS"; Stock.name := "Loss Maker";
             Stock.sector := Some "Retail"%string; Stock.cmp := 10;
             Stock.marketCapCr := Some 1000;
             Stock.sharesOutstandingCr := 100;
             Stock.currentPAT := -5 |} Custom.none))
  = "Strong Buy"%string.
Proof.
  refine (proj2 (proj2 (proj2 (analyze_without_implied_growth _ _ _))) _).
  - left. cbn. discriminate.
  - reflexivity.
Defined.

(** X14. For a profit that is not positive, analyzeStock reports an
    implied equity value of 0 and, when the market cap is positive, an
    upside of -100; for a market cap that is not positive it reports an
    upside of 0 and the "Micro Cap" category. *)
Theorem analyze_degenerate_value
    (stockData : Stock.t) (customAssumptions : Custom.t) :
  let a := analyzeStock stockData customAssumptions in
  (Stock.currentPAT stockData <= 0 ->
   Results.impliedEquityValue (Analysis.results a) = Num 0
   /\ (0 < Analysis.marketCapCr a ->
       jeq (Results.upside (Analysis.results a)) (Num (-100))))
  /\ (Analysis.marketCapCr a <= 0 ->
      Results.upside (Analysis.results a) = Num 0
      /\ Analysis.mcapCategory a = "Micro Cap"%string).
Proof.
  intro a. unfold a. clear a. unfold analyzeStock. cbv zeta.
  cbn [Analysis.results Analysis.marketCapCr Analysis.mcapCategory
       Results.impliedEquityValue Results.upside].
  set (mcap := or_else_Q (Stock.marketCapCr stockData)
                 (Stock.cmp stockData * Stock.sharesOutstandingCr stockData)).
  split.
  - intro HP.
    rewrite degenerate_input_zero by (left; exact HP).
    split; [reflexivity|]. intro Hm. unfold upside_of.
    replace (Qltb 0 mcap) with true by (symmetry; apply Qltb_true; exact Hm).
    rewrite div_num by lra. cbn [sub neg add mul jeq]. field. lra.
  - intro Hm. unfold upside_of.
    replace (Qltb 0 mcap) with false
      by (symmetry; apply Qltb_false; exact Hm).
    split; [reflexivity|].
    unfold getDefaultAssumptions.
    replace (Qltb mcap 500) with true; [reflexivity|].
    symmetry. apply Qltb_true. lra.
Qed.

Lemma analyze_degenerate_value_witness :
  Results.impliedEquityValue
    (Analysis.results
       (analyzeStock
          {| Stock.symbol := "LOSS"; Stock.name := "Loss Maker";
             Stock.sector := Some "Retail"%string; Stock.cmp := 10;
             Stock.marketCapCr := Some 1000;
             Stock.sharesOutstandingCr := 100;
             Stock.currentPAT := -5 |} Custom.none))
  = Num 0.
Proof.
  refine (proj1 (proj1 (analyze_degenerate_value _ _) _)).
  cbn. discriminate.
Defined.

(** X15. A customised assumption of 0 is treated as absent: analyzeStock
    returns the same analysis as when the zero entries are left out, so
    none of forecastYears, discountRate, terminalGrowth, exitPE and
    expectedPatCagr can be set to 0. *)
Theorem analyze_ignores_zero_assumptions
    (stockData : Stock.t) (customAssumptions : Custom.t) :
  analyzeStock stockData customAssumptions
  = analyzeStock stockData (drop_zeros customAssumptions).
Proof.
  unfold analyzeStock. cbv zeta.
  cbn [drop_zeros Custom.forecastYears Custom.discountRate
       Custom.terminalGrowth Custom.exitPE Custom.expectedPatCagr].
  rewrite !or_else_Q_drop, !or_else_Z_drop. reflexivity.
Qed.

Lemma implied_value_le_mono
    (PAT g1 g2 rp : Q) (n : Z) (PE : Q) :
  0 < PAT -> 0 < PE -> (1 <= n)%Z -> -100 < rp -> -100 <= g1 -> g1 <= g2 ->
  exists v1 v2,
    calculateImpliedEquityValue PAT g1 rp n PE = Num v1
    /\ calculateImpliedEquityValue PAT g2 rp n PE = Num v2
    /\ v1 <= v2.
Proof.
  intros HP HE Hn Hr Hg1 Hg.
  assert (Hd : ~ 1 + rp / 100 == 0) by frac_lra.
  destruct (jeq_num_inv _ _ (implied_value_polynomial PAT g1 rp n PE
                               HP HE Hn Hd)) as [v1 [E1 Q1]].
  destruct (jeq_num_inv _ _ (implied_value_polynomial PAT g2 rp n PE
                               HP HE Hn Hd)) as [v2 [E2 Q2]].
  exists v1, v2. split; [exact E1|]. split; [exact E2|].
  rewrite Q1, Q2. apply Qmult_le_l; [exact HP|].
  apply value_multiple_le_mono.
  - apply ratio_nonneg; assumption.
  - apply div_le_compat; frac_lra.
  - apply Qlt_le_weak. exact HE.
Qed.

Lemma upside_sign (PAT mcap rp : Q) (n : Z) (PE expected gstar : Q) :
  0 < PAT -> 0 < mcap -> 0 < PE -> (1 <= n)%Z -> -100 < rp ->
  -100 <= expected -> -100 <= gstar ->
  jeq (calculateImpliedEquityValue PAT gstar rp n PE) (Num mcap) ->
  (lt (Num 0)
      (upside_of (calculateImpliedEquityValue PAT expected rp n PE) mcap)
   = true <-> gstar < expected)
  /\ (lt (upside_of (calculateImpliedEquityValue PAT expected rp n PE) mcap)
         (Num 0)
      = true <-> expected < gstar).
Proof.
  intros HP Hm HE Hn Hr Hex Hgs Hroot.
  unfold upside_of.
  replace (Qltb 0 mcap) with true by (symmetry; apply Qltb_true; exact Hm).
  assert (Hsign : forall v,
            (0 < (v / mcap + - (1)) * 100 <-> mcap < v)
            /\ ((v / mcap + - (1)) * 100 < 0 <-> v < mcap)).
  { intro v.
    assert (Hv : v == (v / mcap) * mcap) by (field; lra).
    set (u := v / mcap) in *.
    split; split; intro H.
    - rewrite Hv. setoid_replace mcap with (1 * mcap) at 1 by ring.
      apply Qmult_lt_compat_r; [exact Hm | lra].
    - rewrite Hv in H. setoid_replace mcap with (1 * mcap) in H at 1 by ring.
      apply Qmult_lt_r in H; [lra | exact Hm].
    - rewrite Hv. setoid_replace mcap with (1 * mcap) at 2 by ring.
      apply Qmult_lt_compat_r; [exact Hm | lra].
    - rewrite Hv in H. setoid_replace mcap with (1 * mcap) in H at 2 by ring.
      apply Qmult_lt_r in H; [lra | exact Hm]. }
  destruct (Qlt_le_dec gstar expected) as [Hlt|Hge];
    [|destruct (Qlt_le_dec expected gstar) as [Hgt|Hle]].
  - destruct (implied_value_lt_mono PAT gstar expected rp n PE
                HP HE Hn Hr Hgs Hlt) as [v1 [v2 [E1 [E2 Hv]]]].
    rewrite E1 in Hroot. cbn [jeq] in Hroot.
    rewrite E2, div_num by lra. cbn [sub neg add mul lt].
    rewrite !Qltb_true. destruct (Hsign v2) as [H1 H2].
    split; [rewrite H1|rewrite H2]; split; intro; lra.
  - destruct (implied_value_lt_mono PAT expected gstar rp n PE
                HP HE Hn Hr Hex Hgt) as [v1 [v2 [E1 [E2 Hv]]]].
    rewrite E2 in Hroot. cbn [jeq] in Hroot.
    rewrite E1, div_num by lra. cbn [sub neg add mul lt].
    rewrite !Qltb_true. destruct (Hsign v1) as [H1 H2].
    split; [rewrite H1|rewrite H2]; split; intro; lra.
  - destruct (implied_value_le_mono PAT gstar expected rp n PE
                HP HE Hn Hr Hgs Hle) as [v1 [v2 [E1 [E2 Hv]]]].
    destruct (implied_value_le_mono PAT expected gstar rp n PE
                HP HE Hn Hr Hex Hge) as [w1 [w2 [F1 [F2 Hw]]]].
    rewrite E1 in F2. inversion F2; subst w2.
    rewrite E2 in F1. inversion F1; subst w1.
    rewrite E1 in Hroot. cbn [jeq] in Hroot.
    rewrite E2, div_num by lra. cbn [sub neg add mul lt].
    rewrite !Qltb_true. destruct (Hsign v2) as [H1 H2].
    split; [rewrite H1|rewrite H2]; split; intro; lra.
Qed.

(** X16. The sign of the upside tells on which side of the market-implied
    growth the expectation lies: for profit > 0, market cap > 0, exit
    multiple > 0, horizon >= 1, discount rate above -100% and an expected
    growth of at least -100%, if the valuation equals the market cap
    exactly at growth g* >= -100%, then analyzeStock reports a positive
    upside exactly when the expected growth exceeds g*, and a negative one
    exactly when it is below g*. *)
Theorem analyze_upside_sign
    (stockData : Stock.t) (customAssumptions : Custom.t) (gstar : Q) :
  let a := analyzeStock stockData customAssumptions in
  let A := Analysis.assumptions a in
  0 < Stock.currentPAT stockData -> 0 < Analysis.marketCapCr a ->
  0 < Assumptions.exitPE A -> (1 <= Assumptions.forecastYears A)%Z ->
  -100 < Assumptions.discountRate A ->
  -100 <= Assumptions.expectedPatCagr A -> -100 <= gstar ->
  jeq (calculateImpliedEquityValue (Stock.currentPAT stockData) gstar
         (Assumptions.discountRate A) (Assumptions.forecastYears A)
         (Assumptions.exitPE A))
      (Num (Analysis.marketCapCr a)) ->
  (lt (Num 0) (Results.upside (Analysis.results a)) = true
   <-> gstar < Assumptions.expectedPatCagr A)
  /\ (lt (Results.upside (Analysis.results a)) (Num 0) = true
      <-> Assumptions.expectedPatCagr A < gstar).
Proof.
  intros a A. unfold A, a. clear A a. unfold analyzeStock. cbv zeta.
  cbn [Analysis.results Analysis.assumptions Analysis.marketCapCr
       Results.upside Assumptions.expectedPatCagr Assumptions.discountRate
       Assumptions.forecastYears Assumptions.exitPE].
  apply upside_sign.
Qed.

(** X17. analyzeStock and the POST /api/calculate-dcf handler agree: the
    results of analyzeStock are the handler's response for the stock's
    profit, the effective market cap and the merged assumptions. *)
Theorem analyze_agrees_with_calculate_dcf
    (stockData : Stock.t) (customAssumptions : Custom.t) :
  let a := analyzeStock stockData customAssumptions in
  let A := Analysis.assumptions a in
  Analysis.results a
  = calculate_dcf (Stock.currentPAT stockData) (Analysis.marketCapCr a)
      (Assumptions.discountRate A) (Assumptions.forecastYears A)
      (Assumptions.exitPE A) (Assumptions.expectedPatCagr A).
Proof.
  intros a A. unfold A, a. clear A a. unfold analyzeStock, calculate_dcf.
  cbv zeta.
  cbn [Analysis.results Analysis.assumptions Analysis.marketCapCr
       Assumptions.expectedPatCagr Assumptions.discountRate
       Assumptions.forecastYears Assumptions.exitPE].
  reflexivity.
Qed.

Lemma analyze_upside_sign_witness :
  lt (Num 0)
     (Results.upside
        (Analysis.results
           (analyzeStock
              {| Stock.symbol := "ACME"; Stock.name := "Acme";
                 Stock.sector := None; Stock.cmp := 2;
                 Stock.marketCapCr := Some 200;
                 Stock.sharesOutstandingCr := 100;
                 Stock.currentPAT := 100 |}
              {| Custom.forecastYears := Some 1%Z;
                 Custom.discountRate := Some 10;
                 Custom.terminalGrowth := None;
                 Custom.exitPE := Some 1;
                 Custom.expectedPatCagr := Some 12 |})))
  = true.
Proof.
  refine (proj2 (proj1 (analyze_upside_sign _ _ 10 _ _ _ _ _ _ _ _)) _);
    first [reflexivity | (cbn; lia) | (cbn; discriminate)].
Defined.

(** ** The valuation at equal growth and discount rates *)

Lemma geometric_sum_one (q : Q) (k : nat) :
  q == 1 -> geometric_sum q k == inject_Z (Z.of_nat k).
Proof.
  intro Hq. unfold geometric_sum.
  induction k as [|k IH]; cbn [sum_1_to]; [reflexivity|].
  rewrite IH, Hq, Qpower_1, Nat2Z.inj_succ. unfold Z.succ.
  rewrite inject_Z_plus. reflexivity.
Qed.

(** X18. When the growth rate equals the discount rate (the case the
    summation loop exists for), every discounted year is worth the current
    profit: for profit > 0, exit multiple > 0, horizon n >= 1 and a rate
    other than -100%, the implied value is PAT * (n + exitPE). *)
Theorem implied_value_at_equal_rates
    (currentPAT ratePct : Q) (forecastPeriod : Z) (exitPE : Q) :
  0 < currentPAT -> 0 < exitPE -> (1 <= forecastPeriod)%Z ->
  ~ ratePct == -100 ->
  jeq (calculateImpliedEquityValue currentPAT ratePct ratePct
         forecastPeriod exitPE)
      (Num (currentPAT * (inject_Z forecastPeriod + exitPE))).
Proof.
  intros HP HE Hn Hr.
  assert (Hd : ~ 1 + ratePct / 100 == 0).
  { intro E. apply Hr. rewrite percent in E. lra. }
  eapply jeq_trans; [apply implied_value_polynomial; assumption|].
  cbn [jeq]. unfold value_multiple.
  assert (Hq : (1 + ratePct / 100) / (1 + ratePct / 100) == 1)
    by (field; intro E; apply Hr; lra).
  rewrite (geometric_sum_one _ _ Hq), Hq, Qpower_1.
  rewrite Z2Nat.id by lia. ring.
Qed.

Lemma implied_value_at_equal_rates_witness :
  jeq (calculateImpliedEquityValue 100 12 12 5 20) (Num (100 * (5 + 20))).
Proof.
  apply (implied_value_at_equal_rates 100 12 5 20);
    first [reflexivity | lia | discriminate].
Defined.

(** ** Monotonicity of the solver in the market cap *)

Lemma round2_mono (a b : Q) : a <= b -> round2 a <= round2 b.
Proof.
  intro H. unfold round2, Math_round.
  apply div_le_compat; [reflexivity|].
  rewrite <- Zle_Qle. apply Qfloor_resp_le. lra.
Qed.

Lemma bisect_mono_target (val : Q -> jsnum) (T1 T2 : Q) :
  T1 <= T2 ->
  forall (iters : nat) (low high : Q),
    low <= high ->
    snd (bisect val T1 (T1 * 0.00001) iters low high)
    <= snd (bisect val T2 (T2 * 0.00001) iters low high).
Proof.
  intros HT iters.
  induction iters as [|i IH]; intros low high Hlh; cbn [bisect];
    [apply Qle_refl|].
  set (mid := (low + high) / 2).
  assert (Hmid : low <= mid /\ mid <= high) by (unfold mid; split; frac_lra).
  destruct Hmid as [Hm1 Hm2].
  destruct (bisect_result_in_bracket val T1 (T1 * 0.00001) i low mid Hm1)
    as [a1 [Ea1 [La1 Ua1]]].
  destruct (bisect_result_in_bracket val T2 (T2 * 0.00001) i mid high Hm2)
    as [a2 [Ea2 [La2 Ua2]]].
  pose proof (IH low mid Hm1) as IHlow.
  pose proof (IH mid high Hm2) as IHhigh.
  destruct (val mid) as [x| | |]; cbn [sub neg add abs lt snd].
  - destruct (Qltb (Qabs (x + - T1)) (T1 * 0.00001)) eqn:H1;
      destruct (Qltb (Qabs (x + - T2)) (T2 * 0.00001)) eqn:H2;
      cbn [snd].
    + apply Qle_refl.
    + apply Qltb_true, Qabs_Qlt_condition in H1. apply Qltb_false in H2.
      destruct (Qltb x T2) eqn:B2.
      * rewrite Ea2. apply round2_mono. exact La2.
      * exfalso. apply Qltb_false in B2.
        rewrite Qabs_pos in H2 by lra. lra.
    + apply Qltb_false in H1. apply Qltb_true, Qabs_Qlt_condition in H2.
      destruct (Qltb x T1) eqn:B1.
      * exfalso. apply Qltb_true in B1.
        rewrite Qabs_neg in H1 by lra. lra.
      * rewrite Ea1. apply round2_mono. exact Ua1.
    + destruct (Qltb x T1) eqn:B1; destruct (Qltb x T2) eqn:B2.
      * exact IHhigh.
      * exfalso. apply Qltb_true in B1. apply Qltb_false in B2. lra.
      * rewrite Ea1, Ea2. apply round2_mono. lra.
      * exact IHlow.
  - exact IHlow.
  - exact IHhigh.
  - exact IHlow.
Qed.

(** X19. A higher market cap never yields a lower implied growth rate:
    for profit > 0, exit multiple > 0 and market caps 0 < m1 <= m2 (any
    discount rate and horizon), the solver's answer for m1 is at most its
    answer for m2. *)
Theorem solver_monotone_in_market_cap
    (currentPAT m1 m2 discountRatePct : Q) (forecastPeriod : Z)
    (exitPE : Q) :
  0 < currentPAT -> 0 < exitPE -> 0 < m1 -> m1 <= m2 ->
  exists v1 v2,
    solveImpliedGrowthRate currentPAT m1 discountRatePct forecastPeriod
      exitPE = Some v1
    /\ solveImpliedGrowthRate currentPAT m2 discountRatePct forecastPeriod
         exitPE = Some v2
    /\ v1 <= v2.
Proof.
  intros HP HE Hm1 Hm.
  assert (Hm2 : 0 < m2) by lra.
  unfold solveImpliedGrowthRate.
  rewrite (solver_run_unfold _ _ _ _ _ HP Hm1 HE _ eq_refl).
  rewrite (solver_run_unfold _ _ _ _ _ HP Hm2 HE _ eq_refl).
  do 2 eexists. split; [reflexivity|]. split; [reflexivity|].
  apply bisect_mono_target; [exact Hm | discriminate].
Qed.

Lemma solver_monotone_in_market_cap_witness :
  exists v1 v2,
    solveImpliedGrowthRate 100 200 0 1 1 = Some v1
    /\ solveImpliedGrowthRate 100 (22001 # 100) 0 1 1 = Some v2
    /\ v1 <= v2.
Proof.
  apply (solver_monotone_in_market_cap 100 200 (22001 # 100) 0 1 1);
    first [reflexivity | discriminate].
Defined.

(** ** Order properties of the signal and of the default assumptions *)

(** X20. A larger expectation gap never gets a more bearish signal: in
    the order Sell < Caution < Hold < Buy < Strong Buy, getSignal is
    monotone in the gap. *)
Theorem signal_monotone (gap1 gap2 : Q) :
  gap1 <= gap2 ->
  (signal_rank (getSignal (Some (Num gap1)))
   <= signal_rank (getSignal (Some (Num gap2))))%nat.
Proof.
  intro H. unfold getSignal. cbn [lt].
  destruct (Qltb 5 gap1) eqn:A1; destruct (Qltb 2 gap1) eqn:A2;
    destruct (Qltb gap1 (-5)) eqn:A3; destruct (Qltb gap1 (-2)) eqn:A4;
    destruct (Qltb 5 gap2) eqn:B1; destruct (Qltb 2 gap2) eqn:B2;
    destruct (Qltb gap2 (-5)) eqn:B3; destruct (Qltb gap2 (-2)) eqn:B4;
    try (vm_compute; lia);
    exfalso; rewrite ?Qltb_true, ?Qltb_false in *; lra.
Qed.

Lemma signal_monotone_witness :
  (signal_rank (getSignal (Some (Num (-3))))
   <= signal_rank (getSignal (Some (Num 5))))%nat.
Proof.
  apply (signal_monotone (-3) 5). discriminate.
Defined.

Lemma sector_scan_bounds (s : string) (entries : list (string * Q)) (d : Q) :
  Forall (fun entry => 10 <= snd entry /\ snd entry <= 45) entries ->
  10 <= d -> d <= 45 ->
  10 <= sector_scan s entries d /\ sector_scan s entries d <= 45.
Proof.
  intros Hall Hd1 Hd2.
  induction Hall as [|[key val] rest Hx Hrest IH]; cbn [sector_scan];
    [tauto|].
  destruct (includes s key); [exact Hx | exact IH].
Qed.

(** X21. The default assumptions always lie in the solver's regular
    domain, whatever the market cap and sector: the horizon is between 10
    and 20 years, the discount rate between 13% and 20%, the expected
    growth between 10% and 25%, the exit multiple between 10 and 45, and
    the terminal growth is 4. *)
Theorem default_assumptions_bounds (marketCap : Q) (sector : option string) :
  let d := getDefaultAssumptions marketCap sector in
  (10 <= forecastYears d <= 20)%Z
  /\ (13 <= discountRate d /\ discountRate d <= 20)
  /\ (10 <= expectedPatCagr d /\ expectedPatCagr d <= 25)
  /\ (10 <= exitPE d /\ exitPE d <= 45)
  /\ terminalGrowth d = 4.
Proof.
  intro d. unfold d.
  split; [|split; [|split; [|split]]].
  5: { unfold getDefaultAssumptions.
       destruct (Qltb marketCap 500), (Qltb marketCap 5000),
         (Qltb marketCap 20000), (Qltb marketCap 50000),
         (Qltb marketCap 200000); reflexivity. }
  4: { rewrite exitPE_default.
       destruct sector as [[|c label]|]; try (split; discriminate).
       apply sector_scan_bounds; try discriminate.
       unfold SECTOR_PE.
       repeat (apply Forall_cons; [split; discriminate|]).
       apply Forall_nil. }
  all: unfold getDefaultAssumptions;
    destruct (Qltb marketCap 500), (Qltb marketCap 5000),
      (Qltb marketCap 20000), (Qltb marketCap 50000),
      (Qltb marketCap 200000);
    cbn [forecastYears discountRate expectedPatCagr];
    first [lia | split; discriminate].
Qed.

(** X22. The defaults get more conservative with size: for market caps
    m1 <= m2 the horizon, the discount rate and the expected growth
    assigned to m2 are at most those assigned to m1. *)
Theorem default_assumptions_monotone
    (m1 m2 : Q) (sector1 sector2 : option string) :
  m1 <= m2 ->
  let d1 := getDefaultAssumptions m1 sector1 in
  let d2 := getDefaultAssumptions m2 sector2 in
  (forecastYears d2 <= forecastYears d1)%Z
  /\ discountRate d2 <= discountRate d1
  /\ expectedPatCagr d2 <= expectedPatCagr d1.
Proof.
  intros H d1 d2. unfold d1, d2, getDefaultAssumptions.
  destruct (Qltb m1 500) eqn:A1; destruct (Qltb m1 5000) eqn:A2;
    destruct (Qltb m1 20000) eqn:A3; destruct (Qltb m1 50000) eqn:A4;
    destruct (Qltb m1 200000) eqn:A5;
    destruct (Qltb m2 500) eqn:B1; destruct (Qltb m2 5000) eqn:B2;
    destruct (Qltb m2 20000) eqn:B3; destruct (Qltb m2 50000) eqn:B4;
    destruct (Qltb m2 200000) eqn:B5;
    cbn [forecastYears discountRate expectedPatCagr];
    try (split; [lia | split; discriminate]);
    exfalso; rewrite ?Qltb_true, ?Qltb_false in *; lra.
Qed.

Lemma default_assumptions_monotone_witness :
  (forecastYears (getDefaultAssumptions 300000 None)
   <= forecastYears (getDefaultAssumptions 400 None))%Z.
Proof.
  apply (default_assumptions_monotone 400 300000 None None). discriminate.
Defined.

(** ** Monotonicity of the solver in the profit *)

Lemma bisect_antimono_val (val1 val2 : Q -> jsnum) (T tol low0 high0 : Q) :
  0 < tol ->
  (forall g, low0 <= g -> g <= high0 ->
     exists x1 x2, val1 g = Num x1 /\ val2 g = Num x2 /\ x1 <= x2) ->
  forall (iters : nat) (low high : Q),
    low0 <= low -> low <= high -> high <= high0 ->
    snd (bisect val2 T tol iters low high)
    <= snd (bisect val1 T tol iters low high).
Proof.
  intros Htol Hval iters.
  induction iters as [|i IH]; intros low high Hl0 Hlh Hh0; cbn [bisect];
    [apply Qle_refl|].
  set (mid := (low + high) / 2).
  assert (Hmid : low <= mid /\ mid <= high) by (unfold mid; split; frac_lra).
  destruct Hmid as [Hm1 Hm2].
  destruct (bisect_result_in_bracket val2 T tol i low mid Hm1)
    as [a2 [Ea2 [La2 Ua2]]].
  destruct (bisect_result_in_bracket val1 T tol i mid high Hm2)
    as [a1 [Ea1 [La1 Ua1]]].
  pose proof (IH low mid Hl0 Hm1 ltac:(lra)) as IHlow.
  pose proof (IH mid high ltac:(lra) Hm2 Hh0) as IHhigh.
  destruct (Hval mid ltac:(lra) ltac:(lra)) as [x1 [x2 [E1 [E2 Hx]]]].
  rewrite E1, E2. cbn [sub neg add abs lt].
  destruct (Qltb (Qabs (x1 + - T)) tol) eqn:H1;
    destruct (Qltb (Qabs (x2 + - T)) tol) eqn:H2; cbn [snd].
  - apply Qle_refl.
  - apply Qltb_true, Qabs_Qlt_condition in H1. apply Qltb_false in H2.
    destruct (Qltb x2 T) eqn:B2.
    + exfalso. apply Qltb_true in B2.
      rewrite Qabs_neg in H2 by lra. lra.
    + rewrite Ea2. apply round2_mono. exact Ua2.
  - apply Qltb_false in H1. apply Qltb_true, Qabs_Qlt_condition in H2.
    destruct (Qltb x1 T) eqn:B1.
    + rewrite Ea1. apply round2_mono. exact La1.
    + exfalso. apply Qltb_false in B1.
      rewrite Qabs_pos in H1 by lra. lra.
  - destruct (Qltb x1 T) eqn:B1; destruct (Qltb x2 T) eqn:B2.
    + exact IHhigh.
    + rewrite Ea1, Ea2. apply round2_mono. lra.
    + exfalso. apply Qltb_false in B1. apply Qltb_true in B2. lra.
    + exact IHlow.
Qed.

(** X23. A higher profit never yields a higher implied growth rate: for
    market cap > 0, exit multiple > 0, horizon >= 1, a discount rate above
    -100% and profits 0 < p1 <= p2, the solver's answer for p2 is at most
    its answer for p1. *)
Theorem solver_antimonotone_in_profit
    (p1 p2 marketCap discountRatePct : Q) (forecastPeriod : Z) (exitPE : Q) :
  0 < p1 -> p1 <= p2 -> 0 < marketCap -> 0 < exitPE ->
  (1 <= forecastPeriod)%Z -> -100 < discountRatePct ->
  exists v1 v2,
    solveImpliedGrowthRate p1 marketCap discountRatePct forecastPeriod
      exitPE = Some v1
    /\ solveImpliedGrowthRate p2 marketCap discountRatePct forecastPeriod
         exitPE = Some v2
    /\ v2 <= v1.
Proof.
  intros Hp1 Hp Hm HE Hn Hr.
  assert (Hp2 : 0 < p2) by lra.
  assert (Hd : ~ 1 + discountRatePct / 100 == 0) by frac_lra.
  unfold solveImpliedGrowthRate.
  rewrite (solver_run_unfold _ _ _ _ _ Hp1 Hm HE _ eq_refl).
  rewrite (solver_run_unfold _ _ _ _ _ Hp2 Hm HE _ eq_refl).
  do 2 eexists. split; [reflexivity|]. split; [reflexivity|].
  cbn [snd].
  apply (bisect_antimono_val _ _ marketCap (marketCap * 0.00001) (-90) 200);
    try lra; try discriminate.
  intros g Hg1 Hg2.
  destruct (jeq_num_inv _ _ (implied_value_polynomial p1 g discountRatePct
                               forecastPeriod exitPE Hp1 HE Hn Hd))
    as [x1 [E1 Q1]].
  destruct (jeq_num_inv _ _ (implied_value_polynomial p2 g discountRatePct
                               forecastPeriod exitPE Hp2 HE Hn Hd))
    as [x2 [E2 Q2]].
  exists x1, x2. split; [exact E1|]. split; [exact E2|].
  rewrite Q1, Q2. apply Qmult_le_compat_r; [exact Hp|].
  apply value_multiple_nonneg;
    [apply ratio_nonneg; lra | apply Qlt_le_weak; exact HE].
Qed.

Lemma solver_antimonotone_in_profit_witness :
  exists v1 v2,
    solveImpliedGrowthRate 100 (22001 # 100) 0 1 1 = Some v1
    /\ solveImpliedGrowthRate 110 (22001 # 100) 0 1 1 = Some v2
    /\ v2 <= v1.
Proof.
  apply (solver_antimonotone_in_profit 100 110 (22001 # 100) 0 1 1);
    first [reflexivity | lia | discriminate].
Defined.

(** ** The front end's copy against the back end *)

Lemma calcValue_is_engine (pat gPct rPct : Q) (n : Z) (pe : Q) :
  calcValue pat gPct rPct n pe
  = calculateImpliedEquityValue pat gPct rPct n pe.
Proof. reflexivity. Qed.

(** X24. The front end's getMcapInfo and the back end's
    getDefaultAssumptions assign the same horizon, discount rate and
    expected growth to every market cap; their band labels coincide except
    that the front end writes "Large-Mid" for "Large-Mid Cap". *)
Theorem mcap_info_agrees_with_defaults (m : Q) (sector : option string) :
  let d := getDefaultAssumptions m sector in
  let i := getMcapInfo m in
  fy i = forecastYears d /\ dr i = discountRate d
  /\ cagr i = expectedPatCagr d
  /\ (label i = category d
      \/ (label i = "Large-Mid"%string
          /\ category d = "Large-Mid Cap"%string)).
Proof.
  intros d i. unfold d, i, getDefaultAssumptions, getMcapInfo.
  destruct (Qltb m 500), (Qltb m 5000), (Qltb m 20000), (Qltb m 50000),
    (Qltb m 200000); cbn [fy dr cagr label forecastYears discountRate
                          expectedPatCagr category];
    repeat split; tauto.
Qed.

Lemma frontend_top_rounds_to_150 :
  round2 ((raise_low 400 (-80) 150 + 150) / 2) == 150.
Proof. vm_compute. reflexivity. Qed.

(** X25. For a target out of reach the two solvers disagree: for
    profit > 0, target > 0, exit multiple > 0, horizon >= 1 and a discount
    rate above -100%, if the valuation at growth 200% is at least
    target * 1e-5 below the target, the back end's solveImpliedGrowthRate
    returns 200 while the front end's solveGrowth returns 150. *)
Theorem solvers_disagree_out_of_reach
    (pat mcap rPct : Q) (n : Z) (pe v : Q) :
  0 < pat -> 0 < mcap -> 0 < pe -> (1 <= n)%Z -> -100 < rPct ->
  jeq (calculateImpliedEquityValue pat 200 rPct n pe) (Num v) ->
  v <= mcap - mcap * 0.00001 ->
  exists back front,
    solveImpliedGrowthRate pat mcap rPct n pe = Some back
    /\ solveGrowth pat mcap rPct n pe = Some front
    /\ back == 200 /\ front == 150.
Proof.
  intros HP HT HE Hn Hr Hv Hgap.
  assert (Hall : forall m, -90 <= m -> m < 200 ->
            within_tolerance
              (fun mid => calculateImpliedEquityValue pat mid rPct n pe)
              mcap (mcap * 0.00001) m = false
            /\ lt (calculateImpliedEquityValue pat m rPct n pe) (Num mcap)
               = true).
  { intros m H1 H2.
    destruct (implied_value_lt_mono pat m 200 rPct n pe HP HE Hn Hr
                ltac:(lra) H2) as [v1 [v2 [E1 [E2 Hlt]]]].
    rewrite E2 in Hv. cbn [jeq] in Hv.
    unfold within_tolerance. rewrite E1. cbn [sub neg add abs lt].
    split.
    - apply Qltb_false. rewrite Qabs_neg by lra. lra.
    - apply Qltb_true. lra. }
  unfold solveImpliedGrowthRate, solveGrowth.
  rewrite (solver_run_unfold _ _ _ _ _ HP HT HE _ eq_refl).
  rewrite (solver_guard_passes _ _ _ HP HT HE).
  rewrite bisect_always_raise; [|reflexivity|exact Hall].
  rewrite (bisect_always_raise
             (fun mid => calcValue pat mid rPct n pe)).
  - cbn [snd]. do 2 eexists.
    split; [reflexivity|]. split; [reflexivity|].
    split; [exact bracket_top_rounds_to_200
           | exact frontend_top_rounds_to_150].
  - reflexivity.
  - intros m H1 H2. rewrite calcValue_is_engine.
    apply Hall; lra.
Qed.

Lemma solvers_disagree_out_of_reach_witness :
  exists back front,
    solveImpliedGrowthRate 100 1000000000 10 5 20 = Some back
    /\ solveGrowth 100 1000000000 10 5 20 = Some front
    /\ back == 200 /\ front == 150.
Proof.
  apply (solvers_disagree_out_of_reach 100 1000000000 10 5 20
           (52411413000 # 161051));
    first [reflexivity | lia | discriminate].
Defined.
